(** * Kademlia connectivity manager (package kademlia)

    A shallow embedding of [Kad] -- the topology manager of the node -- and
    of the collaborators it is written against: overlay addresses with their
    proximity order, and the binned peer set [pslice.PSlice].

    Conventions.
    - Bins, proximity orders and the depth are [uint8] in the Go code and the
      peer counter of [recalcDepth] is a [uint].  Every value that reaches
      them is a bin index below [maxBins] = 16 or a count of at most
      [nnLowWatermark] = 2, so no arithmetic wraps; they are embedded as
      [nat].
    - [k.mtx] is not part of the state: every function below is one critical
      section of the Go code, run from its [Lock] to its [Unlock].
    - A Go [panic] is the [Panic] outcome; a function that can panic returns
      an [outcome]. *)

From Stdlib Require Import List Arith NArith Bool Lia.
From Stdlib Require String.
Import ListNotations.
Import String.StringSyntax.
Delimit Scope string_scope with string.

Definition string : Set := String.string.

Set Implicit Arguments.

(** ** Outcomes of code that can panic *)

Inductive outcome (A : Type) : Type :=
| Ok (a : A)
| Panic (msg : string).

Arguments Ok {A} a.
Arguments Panic {A} msg.

(** A Go [error] value: [None] is [nil]. *)
Definition error := option string.

Definition maxBins : nat := 16.
Definition nnLowWatermark : nat := 2.

(** ** Overlay addresses (package swarm) *)

Module Swarm.

(** An address is a byte sequence; bytes are numbers below 256. *)
Definition Address := list N.

(** [Address.Equal]: byte-wise equality. *)
Fixpoint Equal (a b : Address) : bool :=
  match a, b with
  | [], [] => true
  | x :: a', y :: b' => N.eqb x y && Equal a' b'
  | _, _ => false
  end.

Fixpoint xorBytes (a b : Address) : list N :=
  match a, b with
  | x :: a', y :: b' => N.lxor x y :: xorBytes a' b'
  | _, _ => []
  end.

(** Number of leading zero bits of a byte sequence, most significant bit
    first; [None] when every byte is zero. *)
Fixpoint leadingZeros (xs : list N) : option nat :=
  match xs with
  | [] => None
  | x :: r =>
      if N.eqb x 0 then option_map (fun n => 8 + n) (leadingZeros r)
      else Some (8 - N.size_nat x)
  end.

(** Modelled from the spec: [swarm.Proximity] is not part of the sources at
    hand.  Section 4.1: the number of leading bits at which [a] and [b]
    agree, computed via XOR and leading-zero-bit count over the shared
    prefix, capped to [maxBins - 1]. *)
Definition Proximity (a b : Address) : nat :=
  match leadingZeros (xorBytes a b) with
  | Some n => Nat.min n (maxBins - 1)
  | None => maxBins - 1
  end.

End Swarm.

Import Swarm.

(** ** Binned peer set (package pslice) *)

Module PSlice.

(** Modelled from the spec: the package [pslice] is not part of the sources
    at hand.  Section 3: a mapping from bin to an ordered sequence of
    addresses, insertion order within a bin.  The list has one entry per
    bin; its index is the bin. *)
Definition t := list (list Address).

(** Modelled from the spec: [pslice.New], the set with [n] empty bins. *)
Definition New (n : nat) : t := repeat [] n.

(** Modelled from the spec: [PSlice.Add], section 4.2: inserts [addr] into
    [bin], after the addresses the bin already holds.  The spec gives bins in
    [0, maxBins) only; a bin outside the set leaves it as it is. *)
Fixpoint Add (s : t) (addr : Address) (po : nat) : t :=
  match s, po with
  | [], _ => []
  | b :: r, 0 => (b ++ [addr]) :: r
  | b :: r, S n => b :: Add r addr n
  end.

Fixpoint removeAddr (addr : Address) (l : list Address) : list Address :=
  match l with
  | [] => []
  | a :: r => if Equal a addr then r else a :: removeAddr addr r
  end.

(** Modelled from the spec: [PSlice.Remove], section 4.2: removes [addr]
    from [bin] if present; no-op otherwise. *)
Fixpoint Remove (s : t) (addr : Address) (po : nat) : t :=
  match s, po with
  | [], _ => []
  | b :: r, 0 => removeAddr addr b :: r
  | b :: r, S n => b :: Remove r addr n
  end.

(** Modelled from the spec: [PSlice.Exists], section 4.2: true if [addr] is
    present in any bin. *)
Definition Exists (s : t) (addr : Address) : bool :=
  existsb (fun b => existsb (fun a => Equal a addr) b) s.

(** Modelled from the spec: [PSlice.Length], section 4.2: total peer count
    across all bins. *)
Fixpoint Length (s : t) : nat :=
  match s with
  | [] => 0
  | b :: r => length b + Length r
  end.

Definition occupied (s : t) : bool :=
  existsb (fun b => negb (Nat.eqb (length b) 0)) s.

Fixpoint shallowestEmptyFrom (i : nat) (s : t) : option nat :=
  match s with
  | [] => None
  | [] :: r => if occupied r then Some i else None
  | _ :: r => shallowestEmptyFrom (S i) r
  end.

(** Modelled from the spec: [PSlice.ShallowestEmpty], section 4.2: the
    lowest-numbered bin, strictly shallower than the deepest occupied bin,
    that holds zero peers; the flag is true if every bin up to the deepest
    occupied one is non-empty.  With the flag set the bin is Go's zero
    value. *)
Definition ShallowestEmpty (s : t) : nat * bool :=
  match shallowestEmptyFrom 0 s with
  | Some i => (i, false)
  | None => (0, true)
  end.

(** What [topology.EachPeerFunc] returns: [(stop, skipRestOfBin, err)]. *)
Definition verdict : Type := bool * bool * error.

(** A callback is a Go closure: the variables it captures and assigns are
    the state [S] threaded through the traversal. *)
Definition EachPeerFunc (S : Type) : Type :=
  Address -> nat -> S -> outcome (S * verdict).

Section Traversal.
Variable S : Type.
Variable fn : EachPeerFunc S.

(** The addresses of one bin, in insertion order.  The result tells
    whether the whole traversal ends here ([true]) and with which
    error. *)
Fixpoint eachPeer (po : nat) (l : list Address) (st : S)
  : outcome (S * (bool * error)) :=
  match l with
  | [] => Ok (st, (false, None))
  | a :: r =>
      match fn a po st with
      | Panic m => Panic m
      | Ok (st', (_, _, Some e)) => Ok (st', (true, Some e))
      | Ok (st', (true, _, None)) => Ok (st', (true, None))
      | Ok (st', (false, true, None)) => Ok (st', (false, None))
      | Ok (st', (false, false, None)) => eachPeer po r st'
      end
  end.

(** The bins in the order they are listed. *)
Fixpoint eachBins (bs : list (nat * list Address)) (st : S)
  : outcome (S * error) :=
  match bs with
  | [] => Ok (st, None)
  | (po, l) :: r =>
      match eachPeer po l st with
      | Panic m => Panic m
      | Ok (st', (true, e)) => Ok (st', e)
      | Ok (st', (false, _)) => eachBins r st'
      end
  end.
End Traversal.

(** Every bin with its index, shallowest first. *)
Definition indexed (s : t) : list (nat * list Address) :=
  combine (seq 0 (length s)) s.

(** Modelled from the spec: [PSlice.EachBin], section 4.2: a traversal of
    the [(addr, bin)] pairs bin by bin, within a bin in insertion order;
    [stop] ends the traversal, [skipRestOfBin] advances to the next bin, an
    error aborts the traversal and is handed to the caller.  The bins are
    visited deepest first: [recalcDepth], the one caller of [EachBin],
    is written for that order (its comment "start from deepest"), and the
    depths [TestNeighborhoodDepth] expects are those of that order, while
    section 4.2 names the two orders the other way round. *)
Definition EachBin (S : Type) (s : t) (fn : EachPeerFunc S) (st : S)
  : outcome (S * error) :=
  eachBins fn (rev (indexed s)) st.

(** Modelled from the spec: [PSlice.EachBinRev], section 4.2: as [EachBin],
    in the reverse bin order, which is shallowest first: [manage], its one
    caller, is written to "start shallow and go deeper". *)
Definition EachBinRev (S : Type) (s : t) (fn : EachPeerFunc S) (st : S)
  : outcome (S * error) :=
  eachBins fn (indexed s) st.

End PSlice.

(** ** The connectivity manager *)

(** A transport address ([ma.Multiaddr]). *)
Definition Multiaddr := string.

(** [manageC] is a channel with a buffer of one: [true] when a wake-up is
    pending.  [quit] is only ever closed: [true] once it is. *)
Record Kad : Type := mkKad {
  base : Address;
  connectedPeers : PSlice.t;
  knownPeers : PSlice.t;
  depth : nat;
  manageC : bool;
  quit : bool
}.

Definition setConnected (k : Kad) (c : PSlice.t) : Kad :=
  mkKad (base k) c (knownPeers k) (depth k) (manageC k) (quit k).

Definition setKnown (k : Kad) (c : PSlice.t) : Kad :=
  mkKad (base k) (connectedPeers k) c (depth k) (manageC k) (quit k).

Definition setDepth (k : Kad) (d : nat) : Kad :=
  mkKad (base k) (connectedPeers k) (knownPeers k) d (manageC k) (quit k).

Definition setManageC (k : Kad) (b : bool) : Kad :=
  mkKad (base k) (connectedPeers k) (knownPeers k) (depth k) b (quit k).

Definition setQuit (k : Kad) (b : bool) : Kad :=
  mkKad (base k) (connectedPeers k) (knownPeers k) (depth k) (manageC k) b.

(** [New], without the collaborators and without starting [manage]. *)
Definition New (b : Address) : Kad :=
  mkKad b (PSlice.New maxBins) (PSlice.New maxBins) 0 false false.

(** The statement
    [select { case k.manageC <- struct{}{}: case <-k.quit: default: }].
    With a wake-up pending the send cannot proceed and nothing changes.
    Otherwise the send is ready; when [quit] is closed too, Go picks one of
    the two ready cases, and [pickQuit] is that pick. *)
Definition notify (pickQuit : bool) (k : Kad) : Kad :=
  if manageC k then k
  else if quit k && pickQuit then k
  else setManageC k true.

(** [binSaturated]: the statement after the short circuit returns, so the
    size check below it is never reached. *)
Definition binSaturated (k : Kad) (po depth : nat) : bool :=
  if depth <=? po then false
  else false.

(** The closure [recalcDepth] hands to [EachBin]; it captures [peers] and
    [candidate]. *)
Definition countPeers : PSlice.EachPeerFunc (nat * nat) :=
  fun _ po st =>
    let peers := S (fst st) in
    if nnLowWatermark <=? peers then Ok ((peers, po), (true, false, None))
    else Ok ((peers, snd st), (false, false, None)).

(** The values of [peers] and [candidate] once a traversal has returned.
    [countPeers] never panics ([countPeers_runs]), so the second branch is
    never taken. *)
Definition captured (r : outcome ((nat * nat) * error)) : nat * nat :=
  match r with
  | Ok (st, _) => st
  | Panic _ => (0, 0)
  end.

(** The part of [recalcDepth] after the traversal. *)
Definition depthOf (s : PSlice.t) (candidate : nat) : nat :=
  let '(shallowestEmpty, noEmptyBins) := PSlice.ShallowestEmpty s in
  if noEmptyBins || (candidate <? shallowestEmpty) then candidate
  else shallowestEmpty.

(** [recalcDepth]. *)
Definition recalcDepth (k : Kad) : nat :=
  if PSlice.Length (connectedPeers k) <=? nnLowWatermark then 0
  else
    let candidate :=
      snd (captured (PSlice.EachBin (connectedPeers k) countPeers (0, 0))) in
    depthOf (connectedPeers k) candidate.

(** [NeighborhoodDepth] and [neighborhoodDepth]. *)
Definition NeighborhoodDepth (k : Kad) : nat := depth k.

(** [AddPeer].  On success the Go function returns the [nil] error, which
    is the [None] next to the new state. *)
Definition AddPeer (pickQuit : bool) (k : Kad) (addr : Address)
  : outcome (Kad * error) :=
  let e := PSlice.Exists (connectedPeers k) addr in
  let e2 := PSlice.Exists (knownPeers k) addr in
  if e || e2 then Panic "peer already connected"%string
  else
    let po := Proximity (base k) addr in
    let k1 := setKnown k (PSlice.Add (knownPeers k) addr po) in
    Ok (notify pickQuit k1, None).

(** [Disconnected]. *)
Definition Disconnected (pickQuit : bool) (k : Kad) (addr : Address) : Kad :=
  let po := Proximity (base k) addr in
  let k1 := setConnected k (PSlice.Remove (connectedPeers k) addr po) in
  let k2 := setDepth k1 (recalcDepth k1) in
  notify pickQuit k2.

(** [Remove]. *)
Definition Remove (pickQuit : bool) (k : Kad) (addr : Address) : Kad :=
  let po := Proximity (base k) addr in
  let k1 := setConnected k (PSlice.Remove (connectedPeers k) addr po) in
  let k2 := setDepth k1 (recalcDepth k1) in
  notify pickQuit k2.

(** [ClosestPeer]. *)
Definition ClosestPeer (k : Kad) (addr : Address)
  : outcome (Address * error) :=
  Panic "not implemented"%string.

(** [Close]: closing a channel that is closed already panics in Go. *)
Definition Close (k : Kad) : outcome (Kad * error) :=
  if quit k then Panic "close of closed channel"%string
  else Ok (setQuit k true, None).

(** ** The reconciliation pass *)

(** The collaborators of a pass: the address book ([None] is a failed
    [Get]), and the connector ([false] is a failed [Connect]). *)
Record Collaborators : Type := mkCollaborators {
  addressBookGet : Address -> option Multiaddr;
  p2pConnect : Multiaddr -> bool
}.

(** What a pass works on: the manager and the calls made to
    [p2p.Connect] so far, oldest first. *)
Definition passState : Type := Kad * list Multiaddr.

(** The critical section of the closure of [manage] after a successful
    dial, followed by its [select]. *)
Definition connected (pickQuit : bool) (k : Kad) (peer : Address) (po : nat)
  : Kad :=
  let k1 := setConnected k (PSlice.Add (connectedPeers k) peer po) in
  let k2 := setDepth k1 (recalcDepth k1) in
  notify pickQuit k2.

(** The closure [manage] hands to [knownPeers.EachBinRev]. *)
Definition manageFn (c : Collaborators) (pickQuit : bool)
  : PSlice.EachPeerFunc passState :=
  fun peer po st =>
    let '(k, dials) := st in
    if PSlice.Exists (connectedPeers k) peer then
      Ok (st, (false, false, None))
    else if binSaturated k po (depth k) then
      Ok (st, (false, true, None))
    else
      match addressBookGet c peer with
      | None => Panic "err"%string
      | Some ma =>
          if p2pConnect c ma then
            Ok ((connected pickQuit k peer po, dials ++ [ma]),
                (true, false, None))
          else
            Ok ((k, dials ++ [ma]), (false, false, None))
      end.

(** One pass: the body of [case <-k.manageC] in [manage], after the wake-up
    has been taken from the channel. *)
Definition managePass (c : Collaborators) (pickQuit : bool) (st : passState)
  : outcome (passState * error) :=
  PSlice.EachBinRev (knownPeers (fst st)) (manageFn c pickQuit) st.

(** What one turn of the loop of [manage] does. *)
Inductive turn : Type :=
| Returned                              (* [case <-k.quit]: the task ends *)
| Blocked                               (* neither channel is ready *)
| Passed (r : outcome (passState * error)).

(** One turn of the [for { select { ... } }] of [manage].  When both
    channels are ready Go picks one, and [pickQuit] is that pick. *)
Definition manageTurn (c : Collaborators) (pickQuit pickQuit' : bool)
    (st : passState) : turn :=
  let k := fst st in
  if quit k && (pickQuit || negb (manageC k)) then Returned
  else if manageC k then
    Passed (managePass c pickQuit' (setManageC k false, snd st))
  else Blocked.

(** ** What the claims speak of *)

(** Number of peers in bin [po]. *)
Definition binSize (s : PSlice.t) (po : nat) : nat := length (nth po s []).

(** Running peer count of an ascending scan, after the bins [0 .. po] have
    been scanned. *)
Definition peersUpTo (s : PSlice.t) (po : nat) : nat :=
  PSlice.Length (firstn (S po) s).

(** [c] is the bin at which the running count of an ascending scan first
    reaches the low watermark. *)
Definition candidateBin (s : PSlice.t) (c : nat) : Prop :=
  c < length s /\
  nnLowWatermark <= peersUpTo s c /\
  forall b, b < c -> peersUpTo s b < nnLowWatermark.

(** [e] is an empty bin that lies before an occupied bin. *)
Definition hole (s : PSlice.t) (e : nat) : Prop :=
  binSize s e = 0 /\ exists d, e < d /\ 0 < binSize s d.

Definition shallowestHole (s : PSlice.t) (e : nat) : Prop :=
  hole s e /\ forall e', hole s e' -> e <= e'.

(** Number of peers in the bins [po] and deeper: the running peer count of
    a scan from the deepest bin, once it has scanned bin [po]. *)
Definition peersFrom (s : PSlice.t) (po : nat) : nat :=
  PSlice.Length (skipn po s).

(** [c] is the bin at which the running count of a scan from the deepest bin
    first reaches the low watermark. *)
Definition candidateBinDeepest (s : PSlice.t) (c : nat) : Prop :=
  c < length s /\
  nnLowWatermark <= peersFrom s c /\
  forall b, c < b -> peersFrom s b < nnLowWatermark.

(** Number of peers in a list of bins. *)
Fixpoint peersIn (bs : list (nat * list Address)) : nat :=
  match bs with
  | [] => 0
  | (_, l) :: r => length l + peersIn r
  end.

(** The bin at which a scan of the bins [bs], in the order they are listed
    and with [n] peers counted before, reaches the low watermark. *)
Fixpoint stopBin (bs : list (nat * list Address)) (n : nat) : option nat :=
  match bs with
  | [] => None
  | (po, l) :: r =>
      if nnLowWatermark <=? n + length l then Some po
      else stopBin r (n + length l)
  end.

(** The bins of a traversal with the addresses forgotten. *)
Definition shape (bs : list (nat * list Address)) : list (nat * nat) :=
  map (fun p => (fst p, length (snd p))) bs.

(** [addr] is in the known or in the connected set. *)
Definition registered (k : Kad) (addr : Address) : Prop :=
  exists po, In addr (nth po (connectedPeers k) []) \/
             In addr (nth po (knownPeers k) []).

(** ** The states of the manager *)

(** The states the manager gets into, one critical section at a time: the
    public operations, and for the task [manage] taking the wake-up and
    recording a successful dial of a known peer that is not connected. *)
Inductive reachable : Kad -> Prop :=
| reach_New (b : Address) : reachable (New b)
| reach_AddPeer (pickQuit : bool) (k k' : Kad) (addr : Address) (e : error) :
    reachable k -> AddPeer pickQuit k addr = Ok (k', e) -> reachable k'
| reach_Disconnected (pickQuit : bool) (k : Kad) (addr : Address) :
    reachable k -> reachable (Disconnected pickQuit k addr)
| reach_Remove (pickQuit : bool) (k : Kad) (addr : Address) :
    reachable k -> reachable (Remove pickQuit k addr)
| reach_wake (k : Kad) :
    reachable k -> manageC k = true -> reachable (setManageC k false)
| reach_connected (pickQuit : bool) (k : Kad) (peer : Address) (po : nat) :
    reachable k ->
    In peer (nth po (knownPeers k) []) ->
    PSlice.Exists (connectedPeers k) peer = false ->
    reachable (connected pickQuit k peer po)
| reach_Close (k k' : Kad) (e : error) :
    reachable k -> Close k = Ok (k', e) -> reachable k'.

(** What holds of every state the manager gets into: the depth is the one
    [recalcDepth] gives for the connected set, both sets have [maxBins] bins,
    a connected peer sits in the bin of its proximity to the base and is
    known in that bin, and so does a known peer. *)
Record wellFormed (k : Kad) : Prop := mkWellFormed {
  wf_depth : depth k = recalcDepth k;
  wf_connected_bins : length (connectedPeers k) = maxBins;
  wf_known_bins : length (knownPeers k) = maxBins;
  wf_connected : forall po a, In a (nth po (connectedPeers k) []) ->
                   po = Proximity (base k) a /\
                   In a (nth po (knownPeers k) []);
  wf_known : forall po a, In a (nth po (knownPeers k) []) ->
               po = Proximity (base k) a
}.

(** ** A pass, peer by peer *)

(** The closure of [manage] passes over [peer]: it is connected already, or
    its address resolves and the dial fails. *)
Definition passedOver (c : Collaborators) (k : Kad) (peer : Address) : Prop :=
  PSlice.Exists (connectedPeers k) peer = true \/
  exists ma, addressBookGet c peer = Some ma /\ p2pConnect c ma = false.

(** The calls to [p2p.Connect] made for the peers of [l]. *)
Definition attempts (c : Collaborators) (k : Kad) (l : list Address)
  : list Multiaddr :=
  flat_map (fun peer =>
              if PSlice.Exists (connectedPeers k) peer then []
              else match addressBookGet c peer with
                   | Some ma => [ma]
                   | None => []
                   end) l.

(** ** The states of [TestNeighborhoodDepth] *)

Module Scenario.

Definition baseAddr : Address := [0; 0; 0; 0]%N.
Definition bin0 : Address := [128; 0; 0; 1]%N.
Definition bin0' : Address := [128; 0; 0; 2]%N.
Definition bin1 : Address := [64; 0; 0; 1]%N.
Definition bin1' : Address := [64; 0; 0; 2]%N.
Definition bin8 : Address := [0; 128; 0; 1]%N.
Definition bin8' : Address := [0; 128; 0; 2]%N.

(** The state [AddPeer] leaves, or the state as it was. *)
Definition added (k : Kad) (addr : Address) : Kad :=
  match AddPeer false k addr with
  | Ok (k', _) => k'
  | Panic _ => k
  end.

Definition known (l : list Address) : Kad :=
  fold_left added l (New baseAddr).

Definition dialled (k : Kad) (l : list Address) : Kad :=
  fold_left (fun k a => connected false k a (Proximity (base k) a)) l k.

(** Two peers in bin 8, then one in bin 0 and one in bin 1, all
    connected. *)
Definition fourPeers : Kad :=
  dialled (known [bin8; bin8'; bin0; bin1]) [bin8; bin8'; bin0; bin1].

(** Two peers known, none connected. *)
Definition twoKnown : Kad := known [bin0; bin1].

(** Two connected peers in bin 0 and two in bin 1. *)
Definition twoAndTwo : Kad :=
  dialled (known [bin0; bin0'; bin1; bin1']) [bin0; bin0'; bin1; bin1'].

Definition underlay (a : Address) : option Multiaddr :=
  if Equal a bin0 then Some "/dns/bin0"%string
  else if Equal a bin1 then Some "/dns/bin1"%string
  else None.

(** An address book that knows [bin0] and [bin1], and a connector that
    reaches every transport address. *)
Definition allReachable : Collaborators :=
  mkCollaborators underlay (fun _ => true).

(** [twoKnown] with the dial of [bin0] recorded. *)
Definition afterFirstDial : Kad := connected false twoKnown bin0 0.

(** One connected peer in each of the bins 0, 1 and 8. *)
Definition threePeers : Kad :=
  dialled (known [bin0; bin1; bin8]) [bin0; bin1; bin8].

(** A manager whose connected set has the given number of peers in each
    bin. *)
Definition ofSizes (sizes : list nat) : Kad :=
  mkKad baseAddr (map (fun n => repeat bin0 n) sizes) (PSlice.New maxBins)
        0 false false.

(** The bin sizes of the connected set at each depth check of
    [TestNeighborhoodDepth], in the order of the test. *)
Definition testSizes : list (list nat) :=
    [[0; 0; 0; 0; 0; 0; 0; 0; 0; 0; 0; 0; 0; 0; 0; 0];
     [0; 0; 0; 0; 0; 0; 0; 0; 2; 0; 0; 0; 0; 0; 0; 0];
     [1; 1; 0; 0; 0; 0; 0; 0; 2; 0; 0; 0; 0; 0; 0; 0];
     [1; 1; 1; 0; 0; 0; 0; 0; 2; 0; 0; 0; 0; 0; 0; 0];
     [1; 1; 1; 1; 0; 0; 0; 0; 2; 0; 0; 0; 0; 0; 0; 0];
     [1; 1; 1; 1; 1; 0; 0; 0; 2; 0; 0; 0; 0; 0; 0; 0];
     [1; 1; 1; 1; 1; 1; 0; 0; 2; 0; 0; 0; 0; 0; 0; 0];
     [1; 1; 1; 1; 1; 1; 1; 0; 2; 0; 0; 0; 0; 0; 0; 0];
     [1; 1; 1; 1; 1; 1; 1; 1; 2; 0; 0; 0; 0; 0; 0; 0];
     [1; 1; 1; 1; 1; 1; 1; 1; 2; 1; 0; 0; 0; 0; 0; 0];
     [1; 1; 1; 1; 1; 1; 1; 1; 2; 1; 1; 0; 0; 0; 0; 0];
     [1; 1; 1; 1; 1; 1; 1; 1; 2; 1; 1; 1; 0; 0; 0; 0];
     [1; 1; 1; 1; 1; 1; 1; 1; 2; 1; 1; 1; 1; 0; 0; 0];
     [1; 1; 1; 1; 1; 1; 1; 1; 2; 1; 1; 1; 1; 1; 0; 0];
     [1; 1; 1; 1; 1; 1; 1; 1; 2; 1; 1; 1; 1; 1; 1; 0];
     [1; 1; 1; 1; 1; 1; 1; 1; 2; 1; 1; 1; 1; 1; 1; 1];
     [1; 1; 1; 1; 1; 1; 1; 1; 2; 1; 1; 1; 1; 1; 1; 2];
     [1; 1; 1; 1; 1; 1; 1; 1; 2; 1; 1; 1; 1; 1; 1; 1];
     [1; 0; 1; 1; 1; 1; 1; 1; 2; 1; 1; 1; 1; 1; 1; 1]].

(** An address book without entries. *)
Definition emptyBook : Collaborators :=
  mkCollaborators (fun _ => None) (fun _ => true).

End Scenario.

(** ** Field names (package httputil) *)

Module Httputil.

(** A Go string: its bytes. *)
Definition gostring : Set := list Ascii.ascii.

Definition lit (s : string) : gostring := String.list_ascii_of_string s.

(** [==] on strings. *)
Definition streq (a b : gostring) : bool :=
  if list_eq_dec Ascii.ascii_dec a b then true else false.

(** [strings.HasSuffix]:
    [len(s) >= len(suffix) && s[len(s)-len(suffix):] == suffix]. *)
Definition HasSuffix (s suffix : gostring) : bool :=
  (length suffix <=? length s)
  && streq (skipn (length s - length suffix) s) suffix.

(** [strings.TrimSuffix]. *)
Definition TrimSuffix (s suffix : gostring) : gostring :=
  if HasSuffix s suffix then firstn (length s - length suffix) s else s.

(** [fieldName]: [Name] is [f.Name], and [jsonTag] what
    [f.Tag.Lookup("json")] finds, [None] when the tag has no such key (the
    lookup then returns the empty string and false). *)
Definition fieldName (Name : gostring) (jsonTag : option gostring)
  : gostring :=
  let name := match jsonTag with Some v => v | None => [] end in
  let set := match jsonTag with Some _ => true | None => false end in
  let name := TrimSuffix name (lit ",omitempty"%string) in
  if streq name [] || streq name (lit "-"%string) then
    if set then [] else Name
  else name.

End Httputil.

(** * Properties *)

(** ** The traversal of [recalcDepth] *)

Lemma eachPeer_countPeers (po : nat) (l : list Address) :
  forall n c0, n < nnLowWatermark ->
    PSlice.eachPeer countPeers po l (n, c0) =
    if nnLowWatermark <=? n + length l
    then Ok ((nnLowWatermark, po), (true, None))
    else Ok ((n + length l, c0), (false, None)).
Proof.
  unfold nnLowWatermark.
  induction l as [|a l IH]; intros n c0 Hn; cbn [PSlice.eachPeer length].
  - destruct (Nat.leb_spec 2 (n + 0)); [lia|]. now rewrite Nat.add_0_r.
  - unfold countPeers at 1; cbn [fst snd]. unfold nnLowWatermark.
    destruct (Nat.leb_spec 2 (S n)) as [H|H].
    + assert (n = 1) by lia; subst n.
      destruct (Nat.leb_spec 2 (1 + S (length l))); [reflexivity|lia].
    + assert (n = 0) by lia; subst n.
      rewrite IH by lia. cbn [Nat.add]. reflexivity.
Qed.

Lemma eachBins_countPeers (bs : list (nat * list Address)) :
  forall n c0, n < nnLowWatermark ->
    PSlice.eachBins countPeers bs (n, c0) =
    match stopBin bs n with
    | Some c => Ok ((nnLowWatermark, c), None)
    | None => Ok ((n + peersIn bs, c0), None)
    end.
Proof.
  induction bs as [|[po l] bs IH]; intros n c0 Hn;
    cbn [PSlice.eachBins stopBin peersIn].
  - now rewrite Nat.add_0_r.
  - rewrite eachPeer_countPeers by assumption.
    destruct (Nat.leb_spec nnLowWatermark (n + length l)) as [H|H].
    + reflexivity.
    + rewrite IH by assumption. now rewrite Nat.add_assoc.
Qed.

Lemma peersIn_app (xs ys : list (nat * list Address)) :
  peersIn (xs ++ ys) = peersIn xs + peersIn ys.
Proof.
  induction xs as [|[po l] xs IH]; cbn [app peersIn]; [reflexivity|].
  rewrite IH. lia.
Qed.

Lemma stopBin_app (xs ys : list (nat * list Address)) :
  forall n, stopBin (xs ++ ys) n =
            match stopBin xs n with
            | Some c => Some c
            | None => stopBin ys (n + peersIn xs)
            end.
Proof.
  induction xs as [|[po l] xs IH]; intros n; cbn [app stopBin peersIn].
  - now rewrite Nat.add_0_r.
  - destruct (nnLowWatermark <=? n + length l); [reflexivity|].
    rewrite IH. now rewrite Nat.add_assoc.
Qed.

Lemma stopBin_none (bs : list (nat * list Address)) :
  forall n, n < nnLowWatermark -> stopBin bs n = None ->
            n + peersIn bs < nnLowWatermark.
Proof.
  induction bs as [|[po l] bs IH]; intros n Hn H; cbn [stopBin peersIn] in *.
  - lia.
  - destruct (Nat.leb_spec nnLowWatermark (n + length l)) as [H1|H1];
      [discriminate|].
    specialize (IH _ H1 H). lia.
Qed.

Lemma peersIn_deepestFirst (s : PSlice.t) :
  forall i, peersIn (rev (combine (seq i (length s)) s)) = PSlice.Length s.
Proof.
  induction s as [|b r IH]; intros i;
    cbn [length seq combine rev PSlice.Length]; [reflexivity|].
  rewrite peersIn_app, IH. cbn [peersIn]. lia.
Qed.

Lemma peersFrom_le (s : PSlice.t) :
  forall po, peersFrom s po <= PSlice.Length s.
Proof.
  unfold peersFrom. induction s as [|b r IH]; intros [|po];
    cbn [skipn PSlice.Length]; try lia.
  specialize (IH po). lia.
Qed.

Lemma stopBin_deepestFirst (s : PSlice.t) :
  forall i n c, n < nnLowWatermark ->
    stopBin (rev (combine (seq i (length s)) s)) n = Some c ->
    exists j, c = i + j /\ j < length s /\
      nnLowWatermark <= n + peersFrom s j /\
      forall j', j < j' -> n + peersFrom s j' < nnLowWatermark.
Proof.
  induction s as [|b r IH]; intros i n c Hn H;
    cbn [length seq combine rev] in H.
  - discriminate.
  - rewrite stopBin_app in H.
    destruct (stopBin (rev (combine (seq (S i) (length r)) r)) n)
      as [c'|] eqn:E.
    + injection H as <-. apply IH in E as (j & -> & Hj & Hle & Hlt);
        [|assumption].
      exists (S j). cbn [length]. repeat split; try lia.
      * exact Hle.
      * intros [|j'] Hj'; [lia|]. apply (Hlt j'). lia.
    + pose proof (stopBin_none _ Hn E) as Hnone.
      rewrite peersIn_deepestFirst in *. cbn [stopBin] in H.
      destruct (Nat.leb_spec nnLowWatermark
                  (n + PSlice.Length r + length b)) as [H1|H1];
        [|discriminate].
      injection H as <-. exists 0. cbn [length]. repeat split; try lia.
      * unfold peersFrom. cbn [skipn PSlice.Length]. lia.
      * intros [|j'] Hj'; [lia|].
        change (peersFrom (b :: r) (S j')) with (peersFrom r j').
        pose proof (peersFrom_le r j'). lia.
Qed.

(** [countPeers] does not panic: the traversal of [recalcDepth] returns. *)
Lemma countPeers_runs (s : PSlice.t) :
  exists st, PSlice.EachBin s countPeers (0, 0) = Ok (st, None).
Proof.
  unfold PSlice.EachBin.
  rewrite eachBins_countPeers by (unfold nnLowWatermark; lia).
  destruct (stopBin (rev (PSlice.indexed s)) 0); eauto.
Qed.

(** With more peers than the low watermark the traversal stops at the
    candidate bin. *)
Lemma EachBin_candidate (s : PSlice.t) :
  nnLowWatermark < PSlice.Length s ->
  exists c, candidateBinDeepest s c /\
    PSlice.EachBin s countPeers (0, 0) = Ok ((nnLowWatermark, c), None).
Proof.
  intros H. unfold PSlice.EachBin, PSlice.indexed.
  assert (H0 : 0 < nnLowWatermark) by (unfold nnLowWatermark; lia).
  rewrite eachBins_countPeers by assumption.
  destruct (stopBin (rev (combine (seq 0 (length s)) s)) 0) as [c|] eqn:Hc.
  - exists c. split; [|reflexivity].
    apply stopBin_deepestFirst in Hc as (j & -> & Hj & Hle & Hlt);
      [|assumption].
    cbn [Nat.add] in *. repeat split; assumption.
  - apply stopBin_none in Hc; [|assumption].
    rewrite peersIn_deepestFirst in Hc. lia.
Qed.

(** ** Holes *)

Lemma occupied_spec (s : PSlice.t) :
  PSlice.occupied s = true <-> exists d, 0 < binSize s d.
Proof.
  unfold binSize. induction s as [|b r IH]; cbn [PSlice.occupied existsb].
  - split; [discriminate|]. intros [[|d] H]; cbn in H; lia.
  - fold (PSlice.occupied r). rewrite orb_true_iff, IH, negb_true_iff, Nat.eqb_neq.
    split.
    + intros [H|[d H]]; [exists 0; cbn [nth]; lia | now exists (S d)].
    + intros [[|d] H]; cbn [nth] in H; [left; lia | right; now exists d].
Qed.

Lemma hole_cons (b : list Address) (r : PSlice.t) (e : nat) :
  hole (b :: r) (S e) <-> hole r e.
Proof.
  unfold hole, binSize. cbn [nth]. split; intros [H0 [d [Hd H]]].
  - split; [assumption|]. destruct d as [|d]; [lia|].
    exists d. cbn [nth] in H. split; [lia|assumption].
  - split; [assumption|]. exists (S d). split; [lia|assumption].
Qed.

Lemma shallowestEmptyFrom_some (s : PSlice.t) :
  forall i e, PSlice.shallowestEmptyFrom i s = Some e ->
    exists j, e = i + j /\ shallowestHole s j.
Proof.
  induction s as [|b r IH]; intros i e H; cbn [PSlice.shallowestEmptyFrom] in H.
  - discriminate.
  - destruct b as [|a b].
    + destruct (PSlice.occupied r) eqn:Ho; [|discriminate].
      injection H as <-. exists 0. split; [lia|]. split; [|lia].
      apply occupied_spec in Ho as [d Hd].
      split; [reflexivity|]. exists (S d). split; [lia|assumption].
    + apply IH in H as (j & -> & Hh & Hmin).
      exists (S j). split; [lia|]. split.
      * now apply hole_cons.
      * intros [|e'] He'.
        -- destruct He' as [He' _]. cbn in He'. discriminate.
        -- apply hole_cons in He'. specialize (Hmin _ He'). lia.
Qed.

Lemma shallowestEmptyFrom_none (s : PSlice.t) :
  forall i, PSlice.shallowestEmptyFrom i s = None -> forall e, ~ hole s e.
Proof.
  induction s as [|b r IH]; intros i H e He; cbn [PSlice.shallowestEmptyFrom] in H.
  - destruct He as [_ [[|d] [_ Hd]]]; cbn in Hd; lia.
  - destruct b as [|a b].
    + destruct (PSlice.occupied r) eqn:Ho; [discriminate|].
      destruct He as [_ [d [Hlt Hd]]]. destruct d as [|d]; [lia|].
      assert (PSlice.occupied r = true) by (apply occupied_spec; now exists d).
      congruence.
    + destruct e as [|e].
      * destruct He as [He _]. cbn in He. discriminate.
      * apply hole_cons in He. exact (IH _ H _ He).
Qed.

(** [ShallowestEmpty] finds the shallowest hole, and reports that there is
    none exactly when there is none. *)
Lemma ShallowestEmpty_spec (s : PSlice.t) :
  (exists e, PSlice.ShallowestEmpty s = (e, false) /\ shallowestHole s e) \/
  (PSlice.ShallowestEmpty s = (0, true) /\ forall e, ~ hole s e).
Proof.
  unfold PSlice.ShallowestEmpty.
  destruct (PSlice.shallowestEmptyFrom 0 s) as [e|] eqn:H.
  - left. apply shallowestEmptyFrom_some in H as (j & -> & Hj). now exists j.
  - right. split; [reflexivity|]. now apply shallowestEmptyFrom_none with (i := 0).
Qed.

Lemma shallowestHole_unique (s : PSlice.t) (e e' : nat) :
  shallowestHole s e -> shallowestHole s e' -> e = e'.
Proof.
  intros [H1 M1] [H2 M2]. specialize (M1 _ H2). specialize (M2 _ H1). lia.
Qed.

(** ** The depth algorithm *)

(** C1, as the claim has it: with two connected peers in bin 0 and two in
    bin 1, the running count of an ascending scan reaches the watermark in
    bin 0 and there is no hole, and [recalcDepth] does not return 0. *)
Lemma recalcDepth_not_ascending_candidate :
  nnLowWatermark < PSlice.Length (connectedPeers Scenario.twoAndTwo) /\
  candidateBin (connectedPeers Scenario.twoAndTwo) 0 /\
  (forall e, hole (connectedPeers Scenario.twoAndTwo) e -> 0 < e) /\
  recalcDepth Scenario.twoAndTwo <> 0.
Proof.
  repeat split.
  - vm_compute. lia.
  - vm_compute. lia.
  - vm_compute. lia.
  - intros b Hb. lia.
  - intros [|e] [H0 _]; [vm_compute in H0; discriminate|lia].
  - vm_compute. discriminate.
Qed.

(** C1, amended.  For a connected set with more than [nnLowWatermark]
    peers, [recalcDepth] returns the bin [c] at which the running peer count
    of a scan from the deepest bin first reaches the watermark when every
    hole is deeper than [c] (in particular when there is none), and the
    shallowest hole otherwise; one of the two always applies. *)
Theorem recalcDepth_candidate_or_hole (k : Kad) :
  nnLowWatermark < PSlice.Length (connectedPeers k) ->
  exists c,
    candidateBinDeepest (connectedPeers k) c /\
    ((forall e, hole (connectedPeers k) e -> c < e) -> recalcDepth k = c) /\
    (forall e, shallowestHole (connectedPeers k) e -> e <= c ->
               recalcDepth k = e) /\
    ((forall e, hole (connectedPeers k) e -> c < e) \/
     (exists e, shallowestHole (connectedPeers k) e /\ e <= c)).
Proof.
  intros Hlen. unfold recalcDepth.
  destruct (Nat.leb_spec (PSlice.Length (connectedPeers k)) nnLowWatermark)
    as [Hle|_]; [lia|].
  destruct (EachBin_candidate _ Hlen) as (c & Hc & Hrun).
  rewrite Hrun. cbn [captured snd]. exists c. split; [assumption|].
  unfold depthOf.
  destruct (ShallowestEmpty_spec (connectedPeers k))
    as [(se & -> & Hse) | [-> Hnone]]; cbn [orb].
  - destruct (Nat.ltb_spec c se) as [Hlt|Hge].
    + repeat split.
      * intros e He He'. pose proof (shallowestHole_unique Hse He). lia.
      * left. intros e He. destruct Hse as [_ Hmin]. specialize (Hmin _ He). lia.
    + repeat split.
      * intros Hall. destruct Hse as [Hh _]. specialize (Hall _ Hh). lia.
      * intros e He _. exact (shallowestHole_unique Hse He).
      * right. exists se. split; [assumption|lia].
  - repeat split.
    + intros e [He _] _. now apply Hnone in He.
    + left. intros e He. now apply Hnone in He.
Qed.

(** ** The depth depends on the bin sizes only *)

Lemma eachBins_countPeers_shape (bs bs' : list (nat * list Address)) :
  shape bs = shape bs' ->
  forall n c0, n < nnLowWatermark ->
    PSlice.eachBins countPeers bs (n, c0) =
    PSlice.eachBins countPeers bs' (n, c0).
Proof.
  revert bs'. induction bs as [|[po l] bs IH]; intros [|[po' l'] bs'] Hs;
    try discriminate; [reflexivity|].
  intros n c0 Hn. cbn [shape map fst snd] in Hs.
  injection Hs as Hpo Hl Hs. subst po'.
  cbn [PSlice.eachBins]. rewrite !eachPeer_countPeers by assumption.
  rewrite <- Hl.
  destruct (Nat.leb_spec nnLowWatermark (n + length l)); [reflexivity|].
  now apply IH.
Qed.

Lemma shape_combine (s : PSlice.t) :
  forall i, shape (combine (seq i (length s)) s) =
            combine (seq i (length s)) (map (@length Address) s).
Proof.
  induction s as [|b r IH]; intros i; cbn [length seq combine shape map fst snd].
  - reflexivity.
  - f_equal. apply IH.
Qed.

Lemma shape_indexed (s s' : PSlice.t) :
  map (@length Address) s = map (@length Address) s' ->
  shape (PSlice.indexed s) = shape (PSlice.indexed s').
Proof.
  intros H. unfold PSlice.indexed. rewrite !shape_combine, H.
  replace (length s) with (length s'); [reflexivity|].
  now rewrite <- (length_map (@length Address) s'), <- H, length_map.
Qed.

Lemma Length_sizes (s s' : PSlice.t) :
  map (@length Address) s = map (@length Address) s' ->
  PSlice.Length s = PSlice.Length s'.
Proof.
  revert s'. induction s as [|b r IH]; intros [|b' r'] H; try discriminate;
    [reflexivity|].
  cbn [map] in H. injection H as Hb Hr. cbn [PSlice.Length].
  now rewrite Hb, (IH _ Hr).
Qed.

Lemma occupied_sizes (s s' : PSlice.t) :
  map (@length Address) s = map (@length Address) s' ->
  PSlice.occupied s = PSlice.occupied s'.
Proof.
  revert s'. induction s as [|b r IH]; intros [|b' r'] H; try discriminate;
    [reflexivity|].
  cbn [map] in H. injection H as Hb Hr. unfold PSlice.occupied. cbn [existsb].
  rewrite Hb. f_equal. exact (IH _ Hr).
Qed.

Lemma shallowestEmptyFrom_sizes (s s' : PSlice.t) :
  map (@length Address) s = map (@length Address) s' ->
  forall i, PSlice.shallowestEmptyFrom i s = PSlice.shallowestEmptyFrom i s'.
Proof.
  revert s'. induction s as [|b r IH]; intros [|b' r'] H; try discriminate;
    [reflexivity|].
  cbn [map] in H. injection H as Hb Hr. intros i.
  cbn [PSlice.shallowestEmptyFrom].
  destruct b, b'; try discriminate.
  - now rewrite (@occupied_sizes _ _ Hr).
  - now apply IH.
Qed.

Lemma depthOf_sizes (s s' : PSlice.t) (c : nat) :
  map (@length Address) s = map (@length Address) s' ->
  depthOf s c = depthOf s' c.
Proof.
  intros H. unfold depthOf, PSlice.ShallowestEmpty.
  now rewrite (@shallowestEmptyFrom_sizes _ _ H).
Qed.

Lemma shape_deepestFirst (s s' : PSlice.t) :
  map (@length Address) s = map (@length Address) s' ->
  shape (rev (PSlice.indexed s)) = shape (rev (PSlice.indexed s')).
Proof.
  intros H. unfold shape. rewrite !map_rev. f_equal.
  exact (@shape_indexed _ _ H).
Qed.

Lemma recalcDepth_sizes (k k' : Kad) :
  map (@length Address) (connectedPeers k) =
  map (@length Address) (connectedPeers k') ->
  recalcDepth k = recalcDepth k'.
Proof.
  intros H. unfold recalcDepth, PSlice.EachBin.
  rewrite (@Length_sizes _ _ H), (@depthOf_sizes _ _ _ H).
  rewrite (@eachBins_countPeers_shape _ _ (@shape_deepestFirst _ _ H))
    by (unfold nnLowWatermark; lia).
  reflexivity.
Qed.

(** The depths [TestNeighborhoodDepth] waits for, one for each of its
    checks: [recalcDepth] over the deepest-first [EachBin] returns them. *)
Lemma TestNeighborhoodDepth_depths :
  map (fun sizes => recalcDepth (Scenario.ofSizes sizes)) Scenario.testSizes =
  [0; 0; 2; 3; 4; 5; 6; 7; 8; 8; 9; 10; 11; 12; 13; 14; 15; 14; 1].
Proof. vm_compute. reflexivity. Qed.

(** C2, as the claim has it: with one connected peer in bin 0, one in bin 1
    and two in bin 8, an ascending scan has its running count reach the
    watermark in bin 1, and the traversal [recalcDepth] runs through
    [EachBin] does not stop there: it is not ascending. *)
Lemma EachBin_fourPeers_not_ascending :
  map (@length Address) (connectedPeers Scenario.fourPeers) =
    [1; 1; 0; 0; 0; 0; 0; 0; 2; 0; 0; 0; 0; 0; 0; 0] /\
  candidateBin (connectedPeers Scenario.fourPeers) 1 /\
  snd (captured (PSlice.EachBin (connectedPeers Scenario.fourPeers)
                                countPeers (0, 0))) <> 1.
Proof.
  repeat split.
  - vm_compute. lia.
  - vm_compute. lia.
  - intros [|b] Hb; [vm_compute; lia|lia].
  - vm_compute. discriminate.
Qed.

(** C2, amended.  With one connected peer in bin 0, one in bin 1 and two in
    bin 8, [recalcDepth] is 2: its traversal through [EachBin] starts from
    the deepest bin and stops in bin 8, and the hole at bin 2 lies below
    that candidate. *)
Theorem recalcDepth_scenario3 (k : Kad) :
  map (@length Address) (connectedPeers k) =
    [1; 1; 0; 0; 0; 0; 0; 0; 2; 0; 0; 0; 0; 0; 0; 0] ->
  recalcDepth k = 2 /\
  snd (captured (PSlice.EachBin (connectedPeers k) countPeers (0, 0))) = 8.
Proof.
  intros H.
  assert (H' : map (@length Address) (connectedPeers k) =
               map (@length Address) (connectedPeers Scenario.fourPeers))
    by (rewrite H; reflexivity).
  rewrite (@recalcDepth_sizes _ _ H'). split; [reflexivity|].
  unfold PSlice.EachBin.
  rewrite (@eachBins_countPeers_shape _ _ (@shape_deepestFirst _ _ H'))
    by (unfold nnLowWatermark; lia).
  reflexivity.
Qed.

Lemma recalcDepth_scenario3_witness :
  recalcDepth Scenario.fourPeers = 2 /\
  snd (captured (PSlice.EachBin (connectedPeers Scenario.fourPeers)
                                countPeers (0, 0))) = 8.
Proof.
  apply (recalcDepth_scenario3 Scenario.fourPeers). reflexivity.
Defined.

Lemma recalcDepth_candidate_or_hole_witness :
  exists c,
    candidateBinDeepest (connectedPeers Scenario.fourPeers) c /\
    ((forall e, hole (connectedPeers Scenario.fourPeers) e -> c < e) ->
     recalcDepth Scenario.fourPeers = c) /\
    (forall e, shallowestHole (connectedPeers Scenario.fourPeers) e -> e <= c ->
               recalcDepth Scenario.fourPeers = e) /\
    ((forall e, hole (connectedPeers Scenario.fourPeers) e -> c < e) \/
     (exists e, shallowestHole (connectedPeers Scenario.fourPeers) e /\ e <= c)).
Proof.
  apply (recalcDepth_candidate_or_hole Scenario.fourPeers).
  vm_compute. lia.
Defined.

(** ** The binned peer set *)

Lemma Equal_spec (a b : Address) : Equal a b = true <-> a = b.
Proof.
  revert b. induction a as [|x a IH]; intros [|y b]; cbn [Equal];
    try (split; [discriminate|discriminate]); [tauto|].
  rewrite andb_true_iff, N.eqb_eq, IH. split.
  - intros [-> ->]. reflexivity.
  - intros H. injection H as -> ->. tauto.
Qed.

Lemma Exists_spec (s : PSlice.t) (a : Address) :
  PSlice.Exists s a = true <-> exists po, In a (nth po s []).
Proof.
  unfold PSlice.Exists. rewrite existsb_exists. split.
  - intros (b & Hb & Ha). apply existsb_exists in Ha as (a' & Ha' & He).
    apply Equal_spec in He. subst a'.
    destruct (In_nth _ _ [] Hb) as (po & _ & Hpo). exists po. now rewrite Hpo.
  - intros (po & Hpo). exists (nth po s []). split.
    + destruct (Nat.lt_ge_cases po (length s)) as [Hlt|Hge].
      * now apply nth_In.
      * rewrite nth_overflow in Hpo by assumption. destruct Hpo.
    + apply existsb_exists. exists a. split; [assumption|now apply Equal_spec].
Qed.

Lemma Exists_false (s : PSlice.t) (a : Address) (po : nat) :
  PSlice.Exists s a = false -> ~ In a (nth po s []).
Proof.
  intros H Hin. assert (PSlice.Exists s a = true)
    by (apply Exists_spec; now exists po). congruence.
Qed.

Lemma length_Add (s : PSlice.t) (a : Address) :
  forall po, length (PSlice.Add s a po) = length s.
Proof.
  induction s as [|b r IH]; intros [|po]; cbn [PSlice.Add length]; auto.
Qed.

Lemma length_Remove (s : PSlice.t) (a : Address) :
  forall po, length (PSlice.Remove s a po) = length s.
Proof.
  induction s as [|b r IH]; intros [|po]; cbn [PSlice.Remove length]; auto.
Qed.

Lemma In_Add (s : PSlice.t) (x a : Address) :
  forall po po', In a (nth po' (PSlice.Add s x po) []) <->
    In a (nth po' s []) \/ (a = x /\ po' = po /\ po < length s).
Proof.
  induction s as [|b r IH]; intros po po'.
  - destruct po; cbn [PSlice.Add length]; destruct po'; cbn [nth In];
      split; try tauto; intros [H|H]; try tauto; lia.
  - destruct po as [|po], po' as [|po']; cbn [PSlice.Add nth length].
    + rewrite in_app_iff. cbn [In]. split.
      * intros [H|[H|[]]]; [tauto|]. right. subst. repeat split; lia.
      * intros [H|(-> & _ & _)]; tauto.
    + split; [tauto|]. intros [H|(_ & H & _)]; [assumption|discriminate].
    + split; [tauto|]. intros [H|(_ & H & _)]; [assumption|discriminate].
    + rewrite IH. split; intros [H|(H1 & H2 & H3)]; try tauto; right;
        repeat split; try assumption; lia.
Qed.

Lemma In_removeAddr (x a : Address) (l : list Address) :
  In a (PSlice.removeAddr x l) -> In a l.
Proof.
  induction l as [|b l IH]; cbn [PSlice.removeAddr In]; [tauto|].
  destruct (Equal b x); cbn [In]; tauto.
Qed.

Lemma In_Remove (s : PSlice.t) (x a : Address) :
  forall po po', In a (nth po' (PSlice.Remove s x po) []) ->
                 In a (nth po' s []).
Proof.
  induction s as [|b r IH]; intros po po'.
  - destruct po; cbn [PSlice.Remove]; tauto.
  - destruct po as [|po], po' as [|po']; cbn [PSlice.Remove nth]; try tauto.
    + apply In_removeAddr.
    + apply IH.
Qed.

Lemma length_removeAddr (x : Address) (l : list Address) :
  In x l -> S (length (PSlice.removeAddr x l)) = length l.
Proof.
  induction l as [|b l IH]; cbn [PSlice.removeAddr In length]; [tauto|].
  intros H. destruct (Equal b x) eqn:E; [reflexivity|].
  cbn [length]. f_equal. apply IH. destruct H as [->|H]; [|assumption].
  assert (Equal x x = true) by now apply Equal_spec. congruence.
Qed.

(** Taking a peer out of its bin and putting it back leaves every bin with
    the number of peers it had. *)
Lemma sizes_Remove_Add (s : PSlice.t) (x : Address) :
  forall po, In x (nth po s []) ->
    map (@length Address) (PSlice.Add (PSlice.Remove s x po) x po) =
    map (@length Address) s.
Proof.
  induction s as [|b r IH]; intros po H.
  - destruct po; destruct H.
  - destruct po as [|po]; cbn [PSlice.Remove PSlice.Add map nth] in *.
    + f_equal. rewrite length_app. cbn [length].
      rewrite Nat.add_1_r. now apply length_removeAddr.
    + f_equal. now apply IH.
Qed.

Lemma Proximity_lt (a b : Address) : Proximity a b < maxBins.
Proof.
  unfold Proximity, maxBins.
  destruct (leadingZeros (xorBytes a b)); lia.
Qed.

Lemma recalcDepth_notify (pickQuit : bool) (k : Kad) :
  recalcDepth (notify pickQuit k) = recalcDepth k.
Proof.
  unfold notify. destruct (manageC k), (quit k), pickQuit; reflexivity.
Qed.

(** [notify] touches the wake-up slot only, and leaves a wake-up pending
    unless the manager is closed. *)
Lemma notify_frame (pickQuit : bool) (k : Kad) :
  base (notify pickQuit k) = base k /\
  connectedPeers (notify pickQuit k) = connectedPeers k /\
  knownPeers (notify pickQuit k) = knownPeers k /\
  depth (notify pickQuit k) = depth k /\
  quit (notify pickQuit k) = quit k /\
  (manageC (notify pickQuit k) = true \/ quit k = true).
Proof.
  unfold notify.
  destruct (manageC k) eqn:Hm, (quit k) eqn:Hq, pickQuit; cbn;
    rewrite ?Hm, ?Hq; repeat split; auto.
Qed.

(** ** Every state of the manager is well formed *)

Lemma wellFormed_ext (k k' : Kad) :
  base k' = base k -> connectedPeers k' = connectedPeers k ->
  knownPeers k' = knownPeers k -> depth k' = depth k ->
  wellFormed k -> wellFormed k'.
Proof.
  intros Hb Hc Hk Hd [W1 W2 W3 W4 W5].
  assert (Hr : recalcDepth k' = recalcDepth k)
    by (apply recalcDepth_sizes; now rewrite Hc).
  constructor; rewrite ?Hb, ?Hc, ?Hk, ?Hd, ?Hr; assumption.
Qed.

Lemma wellFormed_notify (pickQuit : bool) (k : Kad) :
  wellFormed k -> wellFormed (notify pickQuit k).
Proof.
  destruct (notify_frame pickQuit k) as (Hb & Hc & Hk & Hd & _).
  now apply wellFormed_ext.
Qed.

Lemma wellFormed_New (b : Address) : wellFormed (New b).
Proof.
  constructor; try reflexivity; cbn [New connectedPeers knownPeers];
    intros po a H; unfold PSlice.New in H; rewrite nth_repeat in H;
    destruct H.
Qed.

Lemma wellFormed_AddPeer (pickQuit : bool) (k k' : Kad) (addr : Address)
    (e : error) :
  wellFormed k -> AddPeer pickQuit k addr = Ok (k', e) -> wellFormed k'.
Proof.
  intros [W1 W2 W3 W4 W5] H. unfold AddPeer in H.
  destruct (PSlice.Exists (connectedPeers k) addr
            || PSlice.Exists (knownPeers k) addr); [discriminate|].
  injection H as <- _. apply wellFormed_notify.
  constructor; cbn [setKnown base connectedPeers knownPeers depth].
  - exact W1.
  - exact W2.
  - now rewrite length_Add.
  - intros po a Ha. destruct (W4 _ _ Ha) as [Hpo Hk]. split; [assumption|].
    apply In_Add. now left.
  - intros po a Ha. apply In_Add in Ha as [Ha|(-> & -> & _)];
      [now apply W5 | reflexivity].
Qed.

Lemma wellFormed_Remove (pickQuit : bool) (k : Kad) (addr : Address) :
  wellFormed k -> wellFormed (Remove pickQuit k addr).
Proof.
  intros [W1 W2 W3 W4 W5]. unfold Remove. apply wellFormed_notify.
  constructor; cbn [setDepth setConnected base connectedPeers knownPeers depth].
  - apply recalcDepth_sizes. reflexivity.
  - now rewrite length_Remove.
  - exact W3.
  - intros po a Ha. apply In_Remove in Ha. now apply W4.
  - exact W5.
Qed.

Lemma wellFormed_connected (pickQuit : bool) (k : Kad) (peer : Address)
    (po : nat) :
  wellFormed k -> In peer (nth po (knownPeers k) []) ->
  wellFormed (connected pickQuit k peer po).
Proof.
  intros [W1 W2 W3 W4 W5] Hin. unfold connected. apply wellFormed_notify.
  constructor; cbn [setDepth setConnected base connectedPeers knownPeers depth].
  - apply recalcDepth_sizes. reflexivity.
  - now rewrite length_Add.
  - exact W3.
  - intros po' a Ha. apply In_Add in Ha as [Ha|(-> & -> & _)].
    + now apply W4.
    + split; [now apply W5 | assumption].
  - exact W5.
Qed.

Lemma reachable_wellFormed (k : Kad) : reachable k -> wellFormed k.
Proof.
  induction 1 as [b | pq k k' addr e _ IH H | pq k addr _ IH | pq k addr _ IH
                 | k _ IH _ | pq k peer po _ IH Hin _ | k k' e _ IH H].
  - apply wellFormed_New.
  - eapply wellFormed_AddPeer; eassumption.
  - now apply wellFormed_Remove.
  - now apply wellFormed_Remove.
  - now apply (wellFormed_ext (k := k)).
  - now apply wellFormed_connected.
  - unfold Close in H. destruct (quit k); [discriminate|].
    injection H as <- _. now apply (wellFormed_ext (k := k)).
Qed.

(** ** The low watermark *)

Lemma reachable_added (k : Kad) (addr : Address) :
  reachable k -> reachable (Scenario.added k addr).
Proof.
  intros H. unfold Scenario.added.
  destruct (AddPeer false k addr) as [[k' e]|m] eqn:E; [|assumption].
  exact (reach_AddPeer _ _ H E).
Qed.

(** C3.  In every state the manager gets into -- through [AddPeer],
    [Disconnected], [Remove], [Close], a wake-up taken or a dial that
    succeeded and was recorded -- a connected-peer count of at most
    [nnLowWatermark] comes with the depth 0 that [NeighborhoodDepth]
    returns. *)
Theorem depth_zero_at_low_watermark (k : Kad) :
  reachable k ->
  PSlice.Length (connectedPeers k) <= nnLowWatermark ->
  NeighborhoodDepth k = 0.
Proof.
  intros Hr Hlen. unfold NeighborhoodDepth.
  rewrite (wf_depth (reachable_wellFormed Hr)). unfold recalcDepth.
  destruct (Nat.leb_spec (PSlice.Length (connectedPeers k)) nnLowWatermark);
    [reflexivity|lia].
Qed.

Lemma depth_zero_at_low_watermark_witness :
  NeighborhoodDepth (Disconnected false Scenario.threePeers Scenario.bin8) = 0.
Proof.
  apply (@depth_zero_at_low_watermark
           (Disconnected false Scenario.threePeers Scenario.bin8)).
  - apply reach_Disconnected.
    unfold Scenario.threePeers, Scenario.dialled, Scenario.known.
    cbn [fold_left].
    repeat (apply reach_connected; [| vm_compute; tauto | reflexivity]).
    repeat apply reachable_added. apply reach_New.
  - vm_compute. lia.
Defined.

(** ** Saturation *)

Lemma binSaturated_returns_false (k : Kad) (po d : nat) :
  binSaturated k po d = false.
Proof.
  unfold binSaturated. destruct (d <=? po); reflexivity.
Qed.

(** C4, as the claim has it: bin 0 holds two connected peers and is
    shallower than depth 1, and [binSaturated] does not return true. *)
Lemma binSaturated_twoAndTwo_not_true :
  0 < 1 /\
  2 <= binSize (connectedPeers Scenario.twoAndTwo) 0 /\
  binSaturated Scenario.twoAndTwo 0 1 <> true.
Proof.
  repeat split; [lia | vm_compute; lia | vm_compute; discriminate].
Qed.

(** C4, amended.  [binSaturated] returns false for every bin and every
    depth: at or below the depth by the short circuit, and for a shallower
    bin whatever the number of connected peers it holds, since the function
    returns before it looks at the bin. *)
Theorem binSaturated_false (k : Kad) (po d : nat) :
  binSaturated k po d = false.
Proof.
  destruct (Nat.leb_spec d po) as [H|H]; unfold binSaturated.
  - apply Nat.leb_le in H. now rewrite H.
  - apply Nat.leb_gt in H. now rewrite H.
Qed.

(** ** [AddPeer] *)

Lemma registered_spec (k : Kad) (addr : Address) :
  registered k addr <->
  PSlice.Exists (connectedPeers k) addr
  || PSlice.Exists (knownPeers k) addr = true.
Proof.
  unfold registered. rewrite orb_true_iff, !Exists_spec. split.
  - intros [po [H|H]]; [left|right]; now exists po.
  - intros [[po H]|[po H]]; exists po; tauto.
Qed.

(** What [AddPeer] does with an address that is in neither set. *)
Lemma AddPeer_fresh (pickQuit : bool) (k : Kad) (addr : Address) :
  PSlice.Exists (connectedPeers k) addr
  || PSlice.Exists (knownPeers k) addr = false ->
  exists k',
    AddPeer pickQuit k addr = Ok (k', None) /\
    knownPeers k' =
      PSlice.Add (knownPeers k) addr (Proximity (base k) addr) /\
    connectedPeers k' = connectedPeers k /\
    depth k' = depth k /\
    base k' = base k /\
    quit k' = quit k /\
    (manageC k' = true \/ quit k = true).
Proof.
  intros H. unfold AddPeer. rewrite H.
  eexists. split; [reflexivity|].
  destruct (notify_frame pickQuit
              (setKnown k (PSlice.Add (knownPeers k) addr
                                      (Proximity (base k) addr))))
    as (Hb & Hc & Hk & Hd & Hq & Hm).
  repeat split; assumption.
Qed.

(** C6, as the claim has it: [bin0] is registered, and [AddPeer] does not
    return an error value with the state left as it was. *)
Lemma AddPeer_duplicate_no_error_value :
  registered Scenario.fourPeers Scenario.bin0 /\
  ~ exists e, AddPeer false Scenario.fourPeers Scenario.bin0 =
              Ok (Scenario.fourPeers, Some e).
Proof.
  split.
  - apply registered_spec. reflexivity.
  - intros [e H]. vm_compute in H. discriminate.
Qed.

(** C6, amended.  [AddPeer] panics with "peer already connected" -- it
    returns no error value -- when the address is in the known or in the
    connected set; otherwise it returns [nil], with the address added to
    the known set in the bin of its proximity to the base, a wake-up posted
    (pending unless the manager is closed) and all else as it was. *)
Theorem AddPeer_panics_or_registers (pickQuit : bool) (k : Kad)
    (addr : Address) :
  (registered k addr /\
   AddPeer pickQuit k addr = Panic "peer already connected"%string) \/
  (~ registered k addr /\
   exists k',
     AddPeer pickQuit k addr = Ok (k', None) /\
     knownPeers k' =
       PSlice.Add (knownPeers k) addr (Proximity (base k) addr) /\
     connectedPeers k' = connectedPeers k /\
     depth k' = depth k /\
     base k' = base k /\
     quit k' = quit k /\
     (manageC k' = true \/ quit k = true)).
Proof.
  destruct (PSlice.Exists (connectedPeers k) addr
            || PSlice.Exists (knownPeers k) addr) eqn:H.
  - left. split; [now apply registered_spec|].
    unfold AddPeer. now rewrite H.
  - right. split.
    + rewrite registered_spec, H. discriminate.
    + now apply AddPeer_fresh.
Qed.

(** C10.  For an address that is in neither set, [AddPeer] returns, and the
    connected set and the depth are what they were before the call: it
    changes the known set and the wake-up slot only. *)
Theorem AddPeer_frame (pickQuit : bool) (k : Kad) (addr : Address) :
  PSlice.Exists (connectedPeers k) addr = false ->
  PSlice.Exists (knownPeers k) addr = false ->
  exists k',
    AddPeer pickQuit k addr = Ok (k', None) /\
    connectedPeers k' = connectedPeers k /\
    NeighborhoodDepth k' = NeighborhoodDepth k /\
    base k' = base k /\
    quit k' = quit k.
Proof.
  intros H1 H2.
  destruct (@AddPeer_fresh pickQuit k addr) as (k' & H & _ & Hc & Hd & Hb & Hq & _).
  - now rewrite H1, H2.
  - exists k'. unfold NeighborhoodDepth. repeat split; assumption.
Qed.

Lemma AddPeer_frame_witness :
  exists k',
    AddPeer false Scenario.fourPeers Scenario.bin1' = Ok (k', None) /\
    connectedPeers k' = connectedPeers Scenario.fourPeers /\
    NeighborhoodDepth k' = NeighborhoodDepth Scenario.fourPeers /\
    base k' = base Scenario.fourPeers /\
    quit k' = quit Scenario.fourPeers.
Proof.
  apply (@AddPeer_frame false Scenario.fourPeers Scenario.bin1');
    reflexivity.
Defined.

(** ** [Remove], then [AddPeer] *)

Lemma Remove_frame (pickQuit : bool) (k : Kad) (addr : Address) :
  base (Remove pickQuit k addr) = base k /\
  knownPeers (Remove pickQuit k addr) = knownPeers k /\
  connectedPeers (Remove pickQuit k addr) =
    PSlice.Remove (connectedPeers k) addr (Proximity (base k) addr).
Proof.
  unfold Remove.
  match goal with |- context [notify pickQuit ?x] =>
    destruct (notify_frame pickQuit x) as (Hb & Hc & Hk & _) end.
  rewrite Hb, Hc, Hk. repeat split.
Qed.

(** C8, as the claim has it: [bin1] is connected, and [AddPeer] after
    [Remove] does not succeed. *)
Lemma Remove_then_AddPeer_fails :
  PSlice.Exists (connectedPeers Scenario.fourPeers) Scenario.bin1 = true /\
  ~ exists k',
      AddPeer false (Remove false Scenario.fourPeers Scenario.bin1)
              Scenario.bin1 = Ok (k', None).
Proof.
  split; [reflexivity|]. intros [k' H]. vm_compute in H. discriminate.
Qed.

(** C8, amended.  For a connected peer [p] of a state the manager gets
    into, [AddPeer p] after [Remove p] panics, [p] being known still; and
    once [p] is recorded as connected again in its bin, as the pass does
    after a successful dial, the depth is the one before the removal. *)
Theorem Remove_then_reconnect (pq1 pq2 pq3 : bool) (k : Kad) (p : Address) :
  reachable k ->
  PSlice.Exists (connectedPeers k) p = true ->
  AddPeer pq2 (Remove pq1 k p) p = Panic "peer already connected"%string /\
  NeighborhoodDepth
    (connected pq3 (Remove pq1 k p) p (Proximity (base k) p)) =
  NeighborhoodDepth k.
Proof.
  intros Hr Hex. pose proof (reachable_wellFormed Hr) as W.
  apply Exists_spec in Hex as [po Hin].
  destruct (wf_connected W _ _ Hin) as [Hpo Hkn]. subst po.
  destruct (Remove_frame pq1 k p) as (Hb & Hk & Hc).
  split.
  - unfold AddPeer. rewrite Hk.
    assert (He : PSlice.Exists (knownPeers k) p = true)
      by (apply Exists_spec; eauto).
    rewrite He, orb_true_r. reflexivity.
  - unfold NeighborhoodDepth, connected.
    match goal with |- depth (notify ?b ?x) = _ =>
      destruct (notify_frame b x) as (_ & _ & _ & -> & _) end.
    cbn [setDepth depth]. rewrite (wf_depth W).
    apply recalcDepth_sizes. cbn [setConnected connectedPeers].
    rewrite Hc. now apply sizes_Remove_Add.
Qed.

Lemma Remove_then_reconnect_witness :
  AddPeer false (Remove false Scenario.twoAndTwo Scenario.bin1) Scenario.bin1
    = Panic "peer already connected"%string /\
  NeighborhoodDepth
    (connected false (Remove false Scenario.twoAndTwo Scenario.bin1)
               Scenario.bin1
               (Proximity (base Scenario.twoAndTwo) Scenario.bin1)) =
  NeighborhoodDepth Scenario.twoAndTwo.
Proof.
  apply (@Remove_then_reconnect false false false Scenario.twoAndTwo
                                Scenario.bin1).
  - unfold Scenario.twoAndTwo, Scenario.dialled, Scenario.known.
    cbn [fold_left].
    repeat (apply reach_connected; [| vm_compute; tauto | reflexivity]).
    repeat apply reachable_added. apply reach_New.
  - reflexivity.
Defined.

(** ** [ClosestPeer] *)

(** C9, as the claim has it: with peers connected [ClosestPeer] returns no
    peer, and with none connected it returns no error. *)
Lemma ClosestPeer_returns_nothing :
  PSlice.Length (connectedPeers Scenario.fourPeers) = 4 /\
  (~ exists p, ClosestPeer Scenario.fourPeers Scenario.bin8 = Ok (p, None)) /\
  PSlice.Length (connectedPeers (New Scenario.baseAddr)) = 0 /\
  (~ exists p e, ClosestPeer (New Scenario.baseAddr) Scenario.bin8 =
                 Ok (p, Some e)).
Proof.
  repeat split; try reflexivity.
  - intros [p H]. discriminate.
  - intros (p & e & H). discriminate.
Qed.

(** C9, amended.  [ClosestPeer] is not implemented: whatever the connected
    set holds, a call panics, and returns neither a peer nor an error. *)
Theorem ClosestPeer_not_implemented (k : Kad) (addr : Address) :
  ClosestPeer k addr = Panic "not implemented"%string.
Proof. reflexivity. Qed.

(** ** The reconciliation pass *)

Lemma connected_frame (pickQuit : bool) (k : Kad) (peer : Address) (po : nat) :
  connectedPeers (connected pickQuit k peer po) =
    PSlice.Add (connectedPeers k) peer po /\
  knownPeers (connected pickQuit k peer po) = knownPeers k /\
  depth (connected pickQuit k peer po) =
    recalcDepth (connected pickQuit k peer po) /\
  (manageC (connected pickQuit k peer po) = true \/ quit k = true).
Proof.
  unfold connected. rewrite recalcDepth_notify.
  match goal with |- context [notify pickQuit ?x] =>
    destruct (notify_frame pickQuit x) as (_ & Hc & Hk & Hd & _ & Hm) end.
  rewrite Hc, Hk, Hd. repeat split; assumption.
Qed.

(** The closure of [manage] on a peer it passes over. *)
Lemma manageFn_passedOver (c : Collaborators) (pickQuit : bool) (k : Kad)
    (dials : list Multiaddr) (peer : Address) (po : nat) :
  passedOver c k peer ->
  manageFn c pickQuit peer po (k, dials) =
  Ok ((k, dials ++ attempts c k [peer]), (false, false, None)).
Proof.
  unfold manageFn, attempts. cbn [flat_map]. rewrite binSaturated_returns_false.
  intros [H|(ma & Hma & Hc)].
  - rewrite H. cbn [app]. now rewrite app_nil_r.
  - destruct (PSlice.Exists (connectedPeers k) peer).
    + cbn [app]. now rewrite app_nil_r.
    + rewrite Hma, Hc. now rewrite app_nil_r.
Qed.

Lemma attempts_app (c : Collaborators) (k : Kad) (l1 l2 : list Address) :
  attempts c k (l1 ++ l2) = attempts c k l1 ++ attempts c k l2.
Proof. unfold attempts. apply flat_map_app. Qed.

Lemma eachPeer_passedOver (c : Collaborators) (pickQuit : bool) (k : Kad)
    (po : nat) (l1 l : list Address) :
  (forall q, In q l1 -> passedOver c k q) ->
  forall dials,
    PSlice.eachPeer (manageFn c pickQuit) po (l1 ++ l) (k, dials) =
    PSlice.eachPeer (manageFn c pickQuit) po l (k, dials ++ attempts c k l1).
Proof.
  induction l1 as [|q l1 IH]; intros H dials.
  - cbn [app attempts flat_map]. now rewrite app_nil_r.
  - cbn [app PSlice.eachPeer].
    rewrite manageFn_passedOver by (apply H; now left).
    rewrite IH by (intros q' Hq'; apply H; now right).
    change (q :: l1) with ([q] ++ l1). now rewrite attempts_app, app_assoc.
Qed.

Lemma eachBins_passedOver (c : Collaborators) (pickQuit : bool) (k : Kad)
    (pre bs : list (nat * list Address)) :
  (forall q, In q (concat (map snd pre)) -> passedOver c k q) ->
  forall dials,
    PSlice.eachBins (manageFn c pickQuit) (pre ++ bs) (k, dials) =
    PSlice.eachBins (manageFn c pickQuit) bs
      (k, dials ++ attempts c k (concat (map snd pre))).
Proof.
  induction pre as [|[po l] pre IH]; intros H dials.
  - cbn [app map concat attempts flat_map]. now rewrite app_nil_r.
  - cbn [app PSlice.eachBins map snd concat] in *.
    pose proof (@eachPeer_passedOver c pickQuit k po l []) as E.
    rewrite app_nil_r in E. rewrite E
      by (intros q Hq; apply H, in_or_app; now left).
    cbn [PSlice.eachPeer].
    rewrite IH by (intros q Hq; apply H, in_or_app; now right).
    now rewrite attempts_app, app_assoc.
Qed.

(** The pass up to the first peer it does not pass over. *)
Lemma managePass_upto (c : Collaborators) (pickQuit : bool) (k : Kad)
    (dials : list Multiaddr) (pre post : list (nat * list Address))
    (po : nat) (l1 l2 : list Address) (peer : Address) :
  PSlice.indexed (knownPeers k) =
    pre ++ (po, l1 ++ peer :: l2) :: post ->
  (forall q, In q (concat (map snd pre) ++ l1) -> passedOver c k q) ->
  managePass c pickQuit (k, dials) =
  match manageFn c pickQuit peer po
          (k, dials ++ attempts c k (concat (map snd pre) ++ l1)) with
  | Panic m => Panic m
  | Ok (st', (_, _, Some e)) => Ok (st', Some e)
  | Ok (st', (true, _, None)) => Ok (st', None)
  | Ok (st', (false, true, None)) =>
      PSlice.eachBins (manageFn c pickQuit) post st'
  | Ok (st', (false, false, None)) =>
      match PSlice.eachPeer (manageFn c pickQuit) po l2 st' with
      | Panic m => Panic m
      | Ok (st'', (true, e)) => Ok (st'', e)
      | Ok (st'', (false, _)) =>
          PSlice.eachBins (manageFn c pickQuit) post st''
      end
  end.
Proof.
  intros Hk Hpre. unfold managePass, PSlice.EachBinRev. cbn [fst].
  rewrite Hk, eachBins_passedOver
    by (intros q Hq; apply Hpre, in_or_app; now left).
  cbn [PSlice.eachBins].
  rewrite eachPeer_passedOver
    by (intros q Hq; apply Hpre, in_or_app; now right).
  cbn [PSlice.eachPeer]. rewrite attempts_app, app_assoc.
  destruct (manageFn c pickQuit peer po _) as [[st' [[[|] [|]] [e|]]]|m];
    reflexivity.
Qed.

(** C5, as the claim has it: [bin0] is a known peer whose address does not
    resolve, and the pass returns nothing: it neither skips the peer nor goes
    on to the next. *)
Lemma managePass_unresolved_no_return :
  PSlice.Exists (knownPeers Scenario.twoKnown) Scenario.bin0 = true /\
  PSlice.Exists (connectedPeers Scenario.twoKnown) Scenario.bin0 = false /\
  addressBookGet Scenario.emptyBook Scenario.bin0 = None /\
  ~ exists r, managePass Scenario.emptyBook false (Scenario.twoKnown, []) =
              Ok r.
Proof.
  repeat split. intros [r H]. vm_compute in H. discriminate.
Qed.

Lemma managePass_unresolved (c : Collaborators)
    (pickQuit : bool) (k : Kad) (dials : list Multiaddr)
    (pre post : list (nat * list Address)) (po : nat)
    (l1 l2 : list Address) (peer : Address) :
  PSlice.indexed (knownPeers k) =
    pre ++ (po, l1 ++ peer :: l2) :: post ->
  (forall q, In q (concat (map snd pre) ++ l1) -> passedOver c k q) ->
  PSlice.Exists (connectedPeers k) peer = false ->
  addressBookGet c peer = None ->
  managePass c pickQuit (k, dials) = Panic "err"%string.
Proof.
  intros Hk Hpre Hex Hab.
  rewrite (@managePass_upto c pickQuit k dials _ _ _ _ _ _ Hk Hpre).
  unfold manageFn. now rewrite Hex, binSaturated_returns_false, Hab.
Qed.

(** C5, what the code does.  When a pass comes to a known peer that is not connected
    and whose transport address does not resolve -- the peers before it
    passed over -- the pass panics with "err": the peer is not skipped, the
    candidates after it are not looked at, and the turn of the task that
    took the wake-up ends in that panic. *)
Theorem managePass_panics_on_unresolved (c : Collaborators)
    (pickQuit : bool) (k : Kad) (dials : list Multiaddr)
    (pre post : list (nat * list Address)) (po : nat)
    (l1 l2 : list Address) (peer : Address) :
  PSlice.indexed (knownPeers k) =
    pre ++ (po, l1 ++ peer :: l2) :: post ->
  (forall q, In q (concat (map snd pre) ++ l1) -> passedOver c k q) ->
  PSlice.Exists (connectedPeers k) peer = false ->
  addressBookGet c peer = None ->
  managePass c pickQuit (k, dials) = Panic "err"%string /\
  manageTurn c false pickQuit (setManageC k true, dials) =
    Passed (Panic "err"%string).
Proof.
  intros Hk Hpre Hex Hab. split.
  - eapply managePass_unresolved; eassumption.
  - unfold manageTurn. cbn [fst snd setManageC manageC quit].
    rewrite andb_false_r. f_equal.
    apply (@managePass_unresolved c pickQuit _ dials pre post po l1 l2 peer);
      assumption.
Qed.

Lemma managePass_panics_on_unresolved_witness :
  managePass Scenario.emptyBook false (Scenario.twoKnown, []) =
    Panic "err"%string /\
  manageTurn Scenario.emptyBook false false
             (setManageC Scenario.twoKnown true, []) =
    Passed (Panic "err"%string).
Proof.
  apply (@managePass_panics_on_unresolved Scenario.emptyBook false
           Scenario.twoKnown [] []
           ((1, [Scenario.bin1]) :: map (fun i => (i, [])) (seq 2 14))
           0 [] [] Scenario.bin0).
  - reflexivity.
  - intros q H. vm_compute in H. tauto.
  - reflexivity.
  - reflexivity.
Defined.




(** ** A pass stays within the states of the manager *)

Lemma eachPeer_invariant (S : Type) (fn : PSlice.EachPeerFunc S)
    (P : S -> Prop) (po : nat) (l : list Address) :
  (forall a st st' v, In a l -> P st -> fn a po st = Ok (st', v) -> P st') ->
  forall st st' r,
    P st -> PSlice.eachPeer fn po l st = Ok (st', r) -> P st'.
Proof.
  induction l as [|a l IH]; intros Hfn st st' r HP H; cbn [PSlice.eachPeer] in H.
  - congruence.
  - destruct (fn a po st) as [[st1 [[stop next] err]]|m] eqn:E; [|discriminate].
    assert (P st1) by (eapply Hfn; [now left | eassumption | eassumption]).
    destruct err as [e|]; [destruct stop, next; congruence|].
    destruct stop; [congruence|].
    destruct next; [congruence|].
    eapply IH; [|eassumption|eassumption].
    intros a' s1 s2 v Ha'. apply Hfn. now right.
Qed.

Lemma eachBins_invariant (S : Type) (fn : PSlice.EachPeerFunc S)
    (P : S -> Prop) (bs : list (nat * list Address)) :
  (forall po l a st st' v,
      In (po, l) bs -> In a l -> P st -> fn a po st = Ok (st', v) -> P st') ->
  forall st st' e,
    P st -> PSlice.eachBins fn bs st = Ok (st', e) -> P st'.
Proof.
  induction bs as [|[po l] bs IH]; intros Hfn st st' e HP H;
    cbn [PSlice.eachBins] in H.
  - congruence.
  - destruct (PSlice.eachPeer fn po l st) as [[st1 [stop err]]|m] eqn:E;
      [|discriminate].
    assert (P st1).
    { eapply eachPeer_invariant; [|eassumption|eassumption].
      intros a s1 s2 v Ha. apply (Hfn po l); [now left|assumption]. }
    destruct stop; [congruence|].
    eapply IH; [|eassumption|eassumption].
    intros po' l' a s1 s2 v Hin. apply Hfn. now right.
Qed.

Lemma In_indexed (s : PSlice.t) (po : nat) (l : list Address) :
  In (po, l) (PSlice.indexed s) -> nth po s [] = l.
Proof.
  unfold PSlice.indexed.
  assert (G : forall i, In (po, l) (combine (seq i (length s)) s) ->
                        i <= po /\ nth (po - i) s [] = l).
  { induction s as [|b r IH]; intros i H; cbn [length seq combine In] in H.
    - destruct H.
    - destruct H as [H|H].
      + injection H as -> ->. rewrite Nat.sub_diag. split; [lia|reflexivity].
      + apply IH in H as [Hle Hn]. split; [lia|].
        replace (po - i) with (S (po - S i)) by lia. exact Hn. }
  intros H. apply G in H as [_ H]. now rewrite Nat.sub_0_r in H.
Qed.

(** A pass that returns leaves the manager in one of its states. *)
Lemma managePass_reachable (c : Collaborators) (pickQuit : bool) (k k' : Kad)
    (dials dials' : list Multiaddr) (e : error) :
  reachable k ->
  managePass c pickQuit (k, dials) = Ok ((k', dials'), e) ->
  reachable k'.
Proof.
  intros Hr H. unfold managePass, PSlice.EachBinRev in H. cbn [fst] in H.
  pose (P := fun st : passState =>
               reachable (fst st) /\ knownPeers (fst st) = knownPeers k).
  assert (HP : P (k', dials')); [|exact (proj1 HP)].
  refine (@eachBins_invariant _ (manageFn c pickQuit) P _ _
            (k, dials) (k', dials') e (conj Hr eq_refl) H).
  intros po l a [k1 d1] [k2 d2] v Hin Ha [Hr1 Hk1] Hfn. cbn [fst] in *.
  apply In_indexed in Hin. unfold manageFn in Hfn.
  destruct (PSlice.Exists (connectedPeers k1) a) eqn:Hex.
  - injection Hfn as <- _ _. now split.
  - rewrite binSaturated_returns_false in Hfn.
    destruct (addressBookGet c a) as [ma|]; [|discriminate].
    destruct (p2pConnect c ma).
    + injection Hfn as <- _ _. unfold P. cbn [fst]. split.
      * apply reach_connected; [assumption| |assumption].
        rewrite Hk1, Hin. assumption.
      * destruct (connected_frame pickQuit k1 a po) as (_ & -> & _).
        assumption.
    + injection Hfn as <- _ _. now split.
Qed.

(** * Further properties of the manager *)

(** ** More on the binned peer set *)

Lemma nth_Add (s : PSlice.t) (a : Address) :
  forall po po',
    nth po' (PSlice.Add s a po) [] =
    if (po' =? po) && (po <? length s) then nth po s [] ++ [a]
    else nth po' s [].
Proof.
  induction s as [|b r IH]; intros po po'.
  - assert (E : (po <? length (@nil (list Address))) = false)
      by (apply Nat.ltb_ge; cbn; lia).
    rewrite E, andb_false_r. destruct po, po'; reflexivity.
  - destruct po as [|po], po' as [|po']; cbn [PSlice.Add nth length];
      try reflexivity.
    rewrite IH. change (S po' =? S po) with (po' =? po).
    change (S po <? S (length r)) with (po <? length r). reflexivity.
Qed.

Lemma nth_Remove (s : PSlice.t) (a : Address) :
  forall po po',
    nth po' (PSlice.Remove s a po) [] =
    if po' =? po then PSlice.removeAddr a (nth po s []) else nth po' s [].
Proof.
  induction s as [|b r IH]; intros po po'.
  - destruct po, po'; cbn; try reflexivity; now destruct (po' =? po).
  - destruct po as [|po], po' as [|po']; cbn [PSlice.Remove nth];
      try reflexivity.
    rewrite IH. reflexivity.
Qed.

Lemma Equal_refl (a : Address) : Equal a a = true.
Proof. now apply Equal_spec. Qed.

Lemma Equal_neq (a b : Address) : a <> b -> Equal a b = false.
Proof.
  intros H. destruct (Equal a b) eqn:E; [|reflexivity].
  apply Equal_spec in E. contradiction.
Qed.

Lemma removeAddr_absent (a : Address) (l : list Address) :
  ~ In a l -> PSlice.removeAddr a l = l.
Proof.
  induction l as [|b l IH]; intros H; cbn [PSlice.removeAddr]; [reflexivity|].
  rewrite Equal_neq by (intros ->; apply H; now left).
  f_equal. apply IH. intros Hin. apply H. now right.
Qed.

Lemma In_removeAddr_other (a q : Address) (l : list Address) :
  q <> a -> In q l -> In q (PSlice.removeAddr a l).
Proof.
  intros Hq. induction l as [|b l IH]; cbn [PSlice.removeAddr In]; [tauto|].
  intros [->|H].
  - rewrite Equal_neq by assumption. now left.
  - destruct (Equal b a); [assumption|]. right. now apply IH.
Qed.

Lemma NoDup_removeAddr (a : Address) (l : list Address) :
  NoDup l -> NoDup (PSlice.removeAddr a l) /\ ~ In a (PSlice.removeAddr a l).
Proof.
  induction 1 as [|b l Hb Hl IH]; cbn [PSlice.removeAddr].
  - split; [constructor|intros []].
  - destruct (Equal b a) eqn:E.
    + apply Equal_spec in E. subst b. now split.
    + destruct IH as [IH1 IH2]. split.
      * constructor; [|assumption]. intros Hin. apply Hb.
        now apply In_removeAddr in Hin.
      * intros [->|Hin]; [|now apply IH2].
        rewrite Equal_refl in E. discriminate.
Qed.

Lemma NoDup_snoc (a : Address) (l : list Address) :
  NoDup l -> ~ In a l -> NoDup (l ++ [a]).
Proof.
  induction 1 as [|b l Hb Hl IH]; intros Ha; cbn [app].
  - constructor; [intros []|constructor].
  - constructor.
    + rewrite in_app_iff. cbn [In]. intros [H|[->|[]]]; [now apply Hb|].
      apply Ha. now left.
    + apply IH. intros H. apply Ha. now right.
Qed.

(** ** No address twice *)

Lemma reachable_NoDup (k : Kad) :
  reachable k ->
  (forall po, NoDup (nth po (connectedPeers k) [])) /\
  (forall po, NoDup (nth po (knownPeers k) [])).
Proof.
  induction 1 as [b | pq k k' addr e _ IH H | pq k addr _ IH | pq k addr _ IH
                 | k _ IH _ | pq k peer po _ IH Hin Hex | k k' e _ IH H].
  - split; intros po; cbn [New connectedPeers knownPeers]; unfold PSlice.New;
      rewrite nth_repeat; constructor.
  - destruct IH as [IHc IHk]. unfold AddPeer in H.
    destruct (PSlice.Exists (connectedPeers k) addr) eqn:E1;
      [discriminate|].
    destruct (PSlice.Exists (knownPeers k) addr) eqn:E2; [discriminate|].
    cbn [orb] in H. injection H as <- _.
    match goal with |- context [notify pq ?x] =>
      destruct (notify_frame pq x) as (_ & -> & -> & _) end.
    cbn [setKnown connectedPeers knownPeers]. split; [assumption|].
    intros po. rewrite nth_Add.
    destruct ((po =? Proximity (base k) addr)
              && (Proximity (base k) addr <? length (knownPeers k)));
      [|apply IHk].
    apply NoDup_snoc; [apply IHk | now apply Exists_false].
  - destruct IH as [IHc IHk].
    destruct (Remove_frame pq k addr) as (_ & Hk & Hc).
    change (Disconnected pq k addr) with (Remove pq k addr).
    rewrite Hk, Hc. split; [|assumption].
    intros po. rewrite nth_Remove.
    destruct (po =? Proximity (base k) addr); [|apply IHc].
    now apply NoDup_removeAddr.
  - destruct IH as [IHc IHk].
    destruct (Remove_frame pq k addr) as (_ & Hk & Hc).
    rewrite Hk, Hc. split; [|assumption].
    intros po. rewrite nth_Remove.
    destruct (po =? Proximity (base k) addr); [|apply IHc].
    now apply NoDup_removeAddr.
  - exact IH.
  - destruct IH as [IHc IHk].
    destruct (connected_frame pq k peer po) as (Hc & Hk & _).
    rewrite Hc, Hk. split; [|assumption].
    intros po'. rewrite nth_Add.
    destruct ((po' =? po) && (po <? length (connectedPeers k)));
      [|apply IHc].
    apply NoDup_snoc; [apply IHc | now apply Exists_false].
  - unfold Close in H. destruct (quit k); [discriminate|].
    injection H as <- _. exact IH.
Qed.

Lemma NoDup_concat_bins (s : PSlice.t) :
  (forall po, NoDup (nth po s [])) ->
  (forall po po' a, In a (nth po s []) -> In a (nth po' s []) -> po = po') ->
  NoDup (concat s).
Proof.
  induction s as [|b r IH]; intros Hn Hd; cbn [concat]; [constructor|].
  apply NoDup_app.
  - exact (Hn 0).
  - apply IH.
    + intros po. exact (Hn (S po)).
    + intros po po' a H H'.
      assert (S po = S po') by (apply (Hd _ _ a); assumption). lia.
  - intros a Ha Hc. apply in_concat in Hc as (l & Hl & Hal).
    destruct (In_nth _ _ [] Hl) as (po & _ & Hpo). subst l.
    assert (0 = S po) by (apply (Hd _ _ a); assumption). discriminate.
Qed.

Lemma Length_Remove (s : PSlice.t) (p : Address) :
  forall po, In p (nth po s []) ->
    S (PSlice.Length (PSlice.Remove s p po)) = PSlice.Length s.
Proof.
  induction s as [|b r IH]; intros po H.
  - destruct po; destruct H.
  - destruct po as [|po]; cbn [PSlice.Remove PSlice.Length nth] in *.
    + rewrite <- (length_removeAddr _ _ H). lia.
    + rewrite <- (IH _ H). lia.
Qed.

Lemma Length_pointwise (s s' : PSlice.t) :
  length s = length s' ->
  (forall po, length (nth po s []) <= length (nth po s' [])) ->
  PSlice.Length s <= PSlice.Length s'.
Proof.
  revert s'. induction s as [|b r IH]; intros [|b' r'] Hl Hp;
    try discriminate; [cbn; lia|].
  cbn [PSlice.Length]. pose proof (Hp 0) as H0. cbn [nth] in H0.
  assert (PSlice.Length r <= PSlice.Length r').
  { apply IH; [now injection Hl|]. intros po. exact (Hp (S po)). }
  lia.
Qed.

Lemma reachable_known (l : list Address) : reachable (Scenario.known l).
Proof.
  unfold Scenario.known.
  assert (G : forall k, reachable k -> reachable (fold_left Scenario.added l k)).
  { induction l as [|a l IH]; intros k Hk; cbn [fold_left]; [assumption|].
    apply IH. now apply reachable_added. }
  apply G. apply reach_New.
Qed.

Lemma reachable_fourPeers : reachable Scenario.fourPeers.
Proof.
  unfold Scenario.fourPeers, Scenario.dialled. cbn [fold_left].
  repeat (apply reach_connected; [| vm_compute; tauto | reflexivity]).
  apply reachable_known.
Qed.

Lemma reachable_twoAndTwo : reachable Scenario.twoAndTwo.
Proof.
  unfold Scenario.twoAndTwo, Scenario.dialled. cbn [fold_left].
  repeat (apply reach_connected; [| vm_compute; tauto | reflexivity]).
  apply reachable_known.
Qed.

(** ** What holds in every state *)

(** X1.  In every state the manager gets into, a connected peer is a known
    peer: [manage] dials known peers only, and nothing takes an address out
    of the known set. *)
Theorem connected_peer_is_known (k : Kad) (a : Address) :
  reachable k ->
  PSlice.Exists (connectedPeers k) a = true ->
  PSlice.Exists (knownPeers k) a = true.
Proof.
  intros Hr H. apply Exists_spec in H as [po H]. apply Exists_spec.
  exists po. exact (proj2 (wf_connected (reachable_wellFormed Hr) _ _ H)).
Qed.

Lemma connected_peer_is_known_witness :
  PSlice.Exists (knownPeers Scenario.fourPeers) Scenario.bin8 = true.
Proof.
  apply (@connected_peer_is_known Scenario.fourPeers Scenario.bin8).
  - exact reachable_fourPeers.
  - reflexivity.
Defined.

(** X2.  In every state the manager gets into, a peer of the known or of
    the connected set sits in the bin of its proximity to the base, a bin
    below [maxBins]. *)
Theorem peer_in_proximity_bin (k : Kad) (a : Address) (po : nat) :
  reachable k ->
  In a (nth po (connectedPeers k) []) \/ In a (nth po (knownPeers k) []) ->
  po = Proximity (base k) a /\ po < maxBins.
Proof.
  intros Hr H. pose proof (reachable_wellFormed Hr) as W.
  assert (po = Proximity (base k) a) as ->.
  { destruct H as [H|H]; [exact (proj1 (wf_connected W _ _ H))
                         | exact (wf_known W _ _ H)]. }
  split; [reflexivity|apply Proximity_lt].
Qed.

Lemma peer_in_proximity_bin_witness :
  8 = Proximity (base Scenario.fourPeers) Scenario.bin8' /\ 8 < maxBins.
Proof.
  apply (@peer_in_proximity_bin Scenario.fourPeers Scenario.bin8' 8).
  - exact reachable_fourPeers.
  - left. vm_compute. tauto.
Defined.

(** X3.  In every state the manager gets into, no address is twice in the
    connected set and none is twice in the known set: [AddPeer] and the
    closure of [manage] add an address only after [Exists] has denied it. *)
Theorem no_address_twice (k : Kad) :
  reachable k ->
  NoDup (concat (connectedPeers k)) /\ NoDup (concat (knownPeers k)).
Proof.
  intros Hr. pose proof (reachable_wellFormed Hr) as W.
  destruct (reachable_NoDup Hr) as [Hc Hk].
  split; apply NoDup_concat_bins; try assumption.
  - intros po po' a H H'.
    rewrite (proj1 (wf_connected W _ _ H)), (proj1 (wf_connected W _ _ H')).
    reflexivity.
  - intros po po' a H H'.
    rewrite (wf_known W _ _ H), (wf_known W _ _ H'). reflexivity.
Qed.

Lemma no_address_twice_witness :
  NoDup (concat (connectedPeers Scenario.twoAndTwo)) /\
  NoDup (concat (knownPeers Scenario.twoAndTwo)).
Proof.
  apply (@no_address_twice Scenario.twoAndTwo). exact reachable_twoAndTwo.
Defined.

(** X4.  In every state the manager gets into, the depth
    [NeighborhoodDepth] returns is the one [recalcDepth] computes from the
    connected set as it is: the stored depth is never stale. *)
Theorem depth_is_current (k : Kad) :
  reachable k -> NeighborhoodDepth k = recalcDepth k.
Proof.
  intros Hr. exact (wf_depth (reachable_wellFormed Hr)).
Qed.

Lemma depth_is_current_witness :
  NeighborhoodDepth (Remove false Scenario.fourPeers Scenario.bin1) =
  recalcDepth (Remove false Scenario.fourPeers Scenario.bin1).
Proof.
  apply (@depth_is_current (Remove false Scenario.fourPeers Scenario.bin1)).
  apply reach_Remove. exact reachable_fourPeers.
Defined.

(** X5.  In every state the manager gets into, the connected peers are at
    most as many as the known peers. *)
Theorem connected_count_le_known (k : Kad) :
  reachable k ->
  PSlice.Length (connectedPeers k) <= PSlice.Length (knownPeers k).
Proof.
  intros Hr. pose proof (reachable_wellFormed Hr) as W.
  destruct (reachable_NoDup Hr) as [Hc _].
  apply Length_pointwise.
  - now rewrite (wf_connected_bins W), (wf_known_bins W).
  - intros po. apply NoDup_incl_length; [apply Hc|].
    intros a Ha. exact (proj2 (wf_connected W _ _ Ha)).
Qed.

Lemma connected_count_le_known_witness :
  PSlice.Length (connectedPeers Scenario.afterFirstDial) <=
  PSlice.Length (knownPeers Scenario.afterFirstDial).
Proof.
  apply (@connected_count_le_known Scenario.afterFirstDial).
  unfold Scenario.afterFirstDial, Scenario.twoKnown.
  apply reach_connected; [apply reachable_known | vm_compute; tauto
                         | reflexivity].
Defined.

(** ** More on the depth *)

Lemma peersFrom_S (s : PSlice.t) :
  forall b, peersFrom s b = binSize s b + peersFrom s (S b).
Proof.
  unfold peersFrom, binSize.
  induction s as [|x r IH]; intros b.
  - rewrite !skipn_nil. destruct b; reflexivity.
  - destruct b as [|b].
    + reflexivity.
    + cbn [skipn nth]. apply IH.
Qed.

Lemma candidateBinDeepest_occupied (s : PSlice.t) (c : nat) :
  candidateBinDeepest s c -> 0 < binSize s c.
Proof.
  intros (_ & Hge & Hlt). rewrite peersFrom_S in Hge.
  specialize (Hlt (S c) (Nat.lt_succ_diag_r c)). lia.
Qed.

(** What [recalcDepth] returns above the low watermark. *)
Lemma recalcDepth_cases (k : Kad) :
  nnLowWatermark < PSlice.Length (connectedPeers k) ->
  exists c, candidateBinDeepest (connectedPeers k) c /\
    ((recalcDepth k = c /\
      forall e, hole (connectedPeers k) e -> c < e) \/
     (shallowestHole (connectedPeers k) (recalcDepth k) /\
      recalcDepth k <= c)).
Proof.
  intros Hlen. unfold recalcDepth.
  destruct (Nat.leb_spec (PSlice.Length (connectedPeers k)) nnLowWatermark)
    as [Hle|_]; [lia|].
  destruct (EachBin_candidate _ Hlen) as (c & Hc & Hrun).
  rewrite Hrun. cbn [captured snd]. exists c. split; [assumption|].
  unfold depthOf.
  destruct (ShallowestEmpty_spec (connectedPeers k))
    as [(se & -> & Hse) | [-> Hnone]]; cbn [orb].
  - destruct (Nat.ltb_spec c se) as [Hlt|Hge].
    + left. split; [reflexivity|]. intros e He.
      destruct Hse as [_ Hmin]. specialize (Hmin _ He). lia.
    + right. split; [assumption|lia].
  - left. split; [reflexivity|]. intros e He. now apply Hnone in He.
Qed.

Lemma recalcDepth_low (k : Kad) :
  PSlice.Length (connectedPeers k) <= nnLowWatermark -> recalcDepth k = 0.
Proof.
  intros H. unfold recalcDepth.
  destruct (Nat.leb_spec (PSlice.Length (connectedPeers k)) nnLowWatermark);
    [reflexivity|lia].
Qed.

(** X6.  In every state the manager gets into, the depth is a bin: it is
    below [maxBins]. *)
Theorem depth_below_maxBins (k : Kad) :
  reachable k -> NeighborhoodDepth k < maxBins.
Proof.
  intros Hr. pose proof (reachable_wellFormed Hr) as W.
  unfold NeighborhoodDepth. rewrite (wf_depth W).
  destruct (Nat.le_gt_cases (PSlice.Length (connectedPeers k)) nnLowWatermark)
    as [Hle|Hgt].
  - rewrite (recalcDepth_low _ Hle). unfold maxBins. lia.
  - destruct (recalcDepth_cases _ Hgt) as (c & (Hc & _) & Hcase).
    rewrite (wf_connected_bins W) in Hc.
    destruct Hcase as [[-> _]|[_ Hle]]; lia.
Qed.

Lemma depth_below_maxBins_witness :
  NeighborhoodDepth Scenario.fourPeers < maxBins.
Proof.
  apply (@depth_below_maxBins Scenario.fourPeers). exact reachable_fourPeers.
Defined.

(** X7.  Every bin shallower than the depth [recalcDepth] returns holds a
    connected peer: the depth never lies beyond an empty bin. *)
Theorem bins_below_depth_occupied (k : Kad) (b : nat) :
  b < recalcDepth k -> 0 < binSize (connectedPeers k) b.
Proof.
  intros Hb.
  destruct (Nat.le_gt_cases (PSlice.Length (connectedPeers k)) nnLowWatermark)
    as [Hle|Hgt].
  - rewrite (recalcDepth_low _ Hle) in Hb. lia.
  - destruct (recalcDepth_cases _ Hgt) as (c & Hc & Hcase).
    pose proof (candidateBinDeepest_occupied Hc) as Hocc.
    destruct (Nat.eq_dec (binSize (connectedPeers k) b) 0) as [H0|H0]; [|lia].
    exfalso.
    assert (Hh : b < c -> hole (connectedPeers k) b).
    { intros Hlt. split; [assumption|]. now exists c. }
    destruct Hcase as [[Heq Hall]|[[_ Hmin] Hle]].
    + rewrite Heq in Hb. specialize (Hall _ (Hh Hb)). lia.
    + assert (Hbc : b < c) by lia. specialize (Hmin _ (Hh Hbc)). lia.
Qed.

Lemma bins_below_depth_occupied_witness :
  0 < binSize (connectedPeers Scenario.fourPeers) 1.
Proof.
  apply (@bins_below_depth_occupied Scenario.fourPeers 1).
  vm_compute. lia.
Defined.

(** X8.  The depth [recalcDepth] returns depends on the number of peers in
    each bin of the connected set only, not on the addresses nor on their
    order within a bin. *)
Theorem depth_depends_on_bin_sizes (k k' : Kad) :
  map (@length Address) (connectedPeers k) =
  map (@length Address) (connectedPeers k') ->
  recalcDepth k = recalcDepth k'.
Proof. apply recalcDepth_sizes. Qed.

Lemma depth_depends_on_bin_sizes_witness :
  recalcDepth Scenario.fourPeers =
  recalcDepth (Remove false
                 (connected false Scenario.fourPeers Scenario.bin1' 1)
                 Scenario.bin1).
Proof.
  apply (@depth_depends_on_bin_sizes Scenario.fourPeers
           (Remove false
              (connected false Scenario.fourPeers Scenario.bin1' 1)
              Scenario.bin1)).
  reflexivity.
Defined.

(** ** More on [Remove] and [Disconnected] *)

Lemma Remove_absent (s : PSlice.t) (a : Address) (po : nat) :
  PSlice.Exists s a = false -> PSlice.Remove s a po = s.
Proof.
  intros H. revert po. induction s as [|b r IH]; intros po.
  - destruct po; reflexivity.
  - unfold PSlice.Exists in H. cbn [existsb] in H.
    apply orb_false_iff in H as [Hb Hr].
    destruct po as [|po]; cbn [PSlice.Remove].
    + f_equal. apply removeAddr_absent. intros Hin.
      assert (existsb (fun x => Equal x a) b = true)
        by (apply existsb_exists; exists a; split;
            [assumption|apply Equal_refl]).
      congruence.
    + f_equal. now apply IH.
Qed.

(** X9.  [Remove] and [Disconnected] of an address that is not connected
    leave the connected set and the known set as they are, and in a state
    the manager gets into the depth as well; the wake-up is posted all the
    same. *)
Theorem Remove_not_connected (pickQuit : bool) (k : Kad) (a : Address) :
  reachable k ->
  PSlice.Exists (connectedPeers k) a = false ->
  connectedPeers (Remove pickQuit k a) = connectedPeers k /\
  knownPeers (Remove pickQuit k a) = knownPeers k /\
  NeighborhoodDepth (Remove pickQuit k a) = NeighborhoodDepth k /\
  Disconnected pickQuit k a = Remove pickQuit k a /\
  (manageC (Remove pickQuit k a) = true \/ quit k = true).
Proof.
  intros Hr Hex. pose proof (reachable_wellFormed Hr) as W.
  destruct (Remove_frame pickQuit k a) as (_ & Hk & Hc).
  rewrite (@Remove_absent _ _ _ Hex) in Hc.
  repeat split; try assumption.
  - unfold NeighborhoodDepth.
    rewrite (wf_depth (wellFormed_Remove pickQuit a W)), (wf_depth W).
    apply recalcDepth_sizes. now rewrite Hc.
  - unfold Remove.
    match goal with |- context [notify pickQuit ?x] =>
      destruct (notify_frame pickQuit x) as (_ & _ & _ & _ & _ & Hm) end.
    exact Hm.
Qed.

Lemma Remove_not_connected_witness :
  connectedPeers (Remove false Scenario.fourPeers Scenario.bin0') =
    connectedPeers Scenario.fourPeers /\
  knownPeers (Remove false Scenario.fourPeers Scenario.bin0') =
    knownPeers Scenario.fourPeers /\
  NeighborhoodDepth (Remove false Scenario.fourPeers Scenario.bin0') =
    NeighborhoodDepth Scenario.fourPeers /\
  Disconnected false Scenario.fourPeers Scenario.bin0' =
    Remove false Scenario.fourPeers Scenario.bin0' /\
  (manageC (Remove false Scenario.fourPeers Scenario.bin0') = true \/
   quit Scenario.fourPeers = true).
Proof.
  apply (@Remove_not_connected false Scenario.fourPeers Scenario.bin0').
  - exact reachable_fourPeers.
  - reflexivity.
Defined.

(** X10.  In a state the manager gets into, [Remove p] leaves [p] not
    connected and every other address connected or not as it was; when [p]
    was connected the connected set holds one peer less. *)
Theorem Remove_disconnects (pickQuit : bool) (k : Kad) (p : Address) :
  reachable k ->
  PSlice.Exists (connectedPeers (Remove pickQuit k p)) p = false /\
  (forall q, q <> p ->
     PSlice.Exists (connectedPeers (Remove pickQuit k p)) q =
     PSlice.Exists (connectedPeers k) q) /\
  (PSlice.Exists (connectedPeers k) p = true ->
   S (PSlice.Length (connectedPeers (Remove pickQuit k p))) =
   PSlice.Length (connectedPeers k)).
Proof.
  intros Hr. pose proof (reachable_wellFormed Hr) as W.
  destruct (reachable_NoDup Hr) as [Hn _].
  destruct (Remove_frame pickQuit k p) as (_ & _ & Hc). rewrite Hc.
  repeat split.
  - destruct (PSlice.Exists (PSlice.Remove _ _ _) p) eqn:E; [|reflexivity].
    exfalso. apply Exists_spec in E as [po E]. rewrite nth_Remove in E.
    destruct (Nat.eqb_spec po (Proximity (base k) p)) as [Heq|Hne].
    + exact (proj2 (NoDup_removeAddr p (Hn _)) E).
    + apply Hne. exact (proj1 (wf_connected W _ _ E)).
  - intros q Hq. apply eq_true_iff_eq. rewrite !Exists_spec.
    split; intros [po H]; exists po.
    + now apply In_Remove in H.
    + rewrite nth_Remove.
      destruct (Nat.eqb_spec po (Proximity (base k) p)) as [Heq|Hne];
        [rewrite <- Heq; now apply In_removeAddr_other|assumption].
  - intros Hex. apply Exists_spec in Hex as [po Hin].
    rewrite (proj1 (wf_connected W _ _ Hin)) in Hin.
    now apply Length_Remove.
Qed.

Lemma Remove_disconnects_witness :
  PSlice.Exists (connectedPeers (Remove false Scenario.fourPeers Scenario.bin8))
                Scenario.bin8 = false /\
  (forall q, q <> Scenario.bin8 ->
     PSlice.Exists
       (connectedPeers (Remove false Scenario.fourPeers Scenario.bin8)) q =
     PSlice.Exists (connectedPeers Scenario.fourPeers) q) /\
  (PSlice.Exists (connectedPeers Scenario.fourPeers) Scenario.bin8 = true ->
   S (PSlice.Length
        (connectedPeers (Remove false Scenario.fourPeers Scenario.bin8))) =
   PSlice.Length (connectedPeers Scenario.fourPeers)).
Proof.
  apply (@Remove_disconnects false Scenario.fourPeers Scenario.bin8).
  exact reachable_fourPeers.
Defined.

(** ** More on the reconciliation pass *)

Lemma eachPeer_until (S : Type) (fn : PSlice.EachPeerFunc S)
    (P Q : S -> Prop) (po : nat) (l : list Address) :
  (forall a st st' stop next err,
      In a l -> P st -> fn a po st = Ok (st', (stop, next, err)) ->
      err = None /\ next = false /\ if stop then Q st' else P st') ->
  forall st st' stop e,
    P st -> PSlice.eachPeer fn po l st = Ok (st', (stop, e)) ->
    e = None /\ if stop then Q st' else P st'.
Proof.
  induction l as [|a l IH]; intros Hfn st st' stop e HP H;
    cbn [PSlice.eachPeer] in H.
  - injection H as <- <- <-. now split.
  - destruct (fn a po st) as [[st1 [[stop1 next1] err1]]|m] eqn:E;
      [|discriminate].
    destruct (Hfn _ _ _ _ _ _ (or_introl eq_refl) HP E) as (-> & -> & H1).
    destruct stop1.
    + injection H as <- <- <-. now split.
    + eapply IH; [|exact H1|exact H].
      intros a' s1 s2 sp nx er Ha'. apply Hfn. now right.
Qed.

Lemma eachBins_until (S : Type) (fn : PSlice.EachPeerFunc S)
    (P Q : S -> Prop) (bs : list (nat * list Address)) :
  (forall po l a st st' stop next err,
      In (po, l) bs -> In a l -> P st ->
      fn a po st = Ok (st', (stop, next, err)) ->
      err = None /\ next = false /\ if stop then Q st' else P st') ->
  forall st st' e,
    P st -> PSlice.eachBins fn bs st = Ok (st', e) ->
    e = None /\ (P st' \/ Q st').
Proof.
  induction bs as [|[po l] bs IH]; intros Hfn st st' e HP H;
    cbn [PSlice.eachBins] in H.
  - injection H as <- <-. split; [reflexivity|now left].
  - destruct (PSlice.eachPeer fn po l st) as [[st1 [stop err]]|m] eqn:E;
      [|discriminate].
    assert (Hl : err = None /\ if stop then Q st1 else P st1).
    { eapply eachPeer_until; [|exact HP|exact E].
      intros a s1 s2 sp nx er Ha. apply (Hfn po l); [now left|assumption]. }
    destruct Hl as [-> Hl]. destruct stop.
    + injection H as <- <-. split; [reflexivity|now right].
    + eapply IH; [|exact Hl|exact H].
      intros po' l' a s1 s2 sp nx er Hin. apply Hfn. now right.
Qed.

(** X11.  A pass that returns returns no error, and either leaves the
    manager as it was, or has recorded one peer as connected: a peer of the
    known set that was not connected, whose address resolved and whose dial
    succeeded.  A pass connects at most one peer. *)
Theorem managePass_at_most_one (c : Collaborators) (pickQuit : bool)
    (k k' : Kad) (dials dials' : list Multiaddr) (e : error) :
  managePass c pickQuit (k, dials) = Ok ((k', dials'), e) ->
  e = None /\
  (k' = k \/
   exists peer po ma,
     In peer (nth po (knownPeers k) []) /\
     PSlice.Exists (connectedPeers k) peer = false /\
     addressBookGet c peer = Some ma /\
     p2pConnect c ma = true /\
     k' = connected pickQuit k peer po).
Proof.
  intros H. unfold managePass, PSlice.EachBinRev in H. cbn [fst] in H.
  pose (P := fun st : passState => fst st = k).
  pose (Q := fun st : passState =>
               exists peer po ma,
                 In peer (nth po (knownPeers k) []) /\
                 PSlice.Exists (connectedPeers k) peer = false /\
                 addressBookGet c peer = Some ma /\
                 p2pConnect c ma = true /\
                 fst st = connected pickQuit k peer po).
  assert (G : e = None /\ (P (k', dials') \/ Q (k', dials'))).
  { refine (@eachBins_until _ (manageFn c pickQuit) P Q _ _
              (k, dials) (k', dials') e eq_refl H).
    intros po l a [k1 d1] [k2 d2] stop next err Hin Ha HP Hfn.
    unfold P in HP. cbn [fst] in HP. subst k1.
    apply In_indexed in Hin. subst l.
    unfold manageFn in Hfn.
    destruct (PSlice.Exists (connectedPeers k) a) eqn:Hex.
    - injection Hfn as <- _ <- <- <-. now repeat split.
    - rewrite binSaturated_returns_false in Hfn.
      destruct (addressBookGet c a) as [ma|] eqn:Hab; [|discriminate].
      destruct (p2pConnect c ma) eqn:Hc.
      + injection Hfn as <- _ <- <- <-. repeat split.
        exists a, po, ma. now repeat split.
      + injection Hfn as <- _ <- <- <-. now repeat split. }
  destruct G as [He [HP|HQ]]; split; try assumption.
  - left. exact HP.
  - right. exact HQ.
Qed.

Lemma managePass_at_most_one_witness :
  @None string = None /\
  (Scenario.afterFirstDial = Scenario.twoKnown \/
   exists peer po ma,
     In peer (nth po (knownPeers Scenario.twoKnown) []) /\
     PSlice.Exists (connectedPeers Scenario.twoKnown) peer = false /\
     addressBookGet Scenario.allReachable peer = Some ma /\
     p2pConnect Scenario.allReachable ma = true /\
     Scenario.afterFirstDial = connected false Scenario.twoKnown peer po).
Proof.
  apply (@managePass_at_most_one Scenario.allReachable false
           Scenario.twoKnown Scenario.afterFirstDial []
           ["/dns/bin0"%string] None).
  reflexivity.
Defined.

Lemma In_concat_indexed (s : PSlice.t) (q : Address) :
  In q (concat (map snd (PSlice.indexed s))) ->
  exists po, In q (nth po s []).
Proof.
  intros H. apply in_concat in H as (l & Hl & Hq).
  apply in_map_iff in Hl as ([po l'] & Heq & Hin). cbn [snd] in Heq. subst l'.
  apply In_indexed in Hin. exists po. now rewrite Hin.
Qed.

(** X12.  When every known peer is connected already or resolves and fails
    to dial, the pass returns with the manager as it was -- no peer dropped
    from the known set, no depth changed -- after one dial for each known
    peer that is not connected. *)
Theorem managePass_no_dial_succeeds (c : Collaborators) (pickQuit : bool)
    (k : Kad) (dials : list Multiaddr) :
  (forall po q, In q (nth po (knownPeers k) []) -> passedOver c k q) ->
  managePass c pickQuit (k, dials) =
  Ok ((k, dials ++
          attempts c k
            (concat (map snd (PSlice.indexed (knownPeers k))))),
      None).
Proof.
  intros H. unfold managePass, PSlice.EachBinRev. cbn [fst].
  rewrite <- (app_nil_r (PSlice.indexed (knownPeers k))) at 1.
  rewrite eachBins_passedOver; [reflexivity|].
  intros q Hq. apply In_concat_indexed in Hq as [po Hq]. exact (H _ _ Hq).
Qed.

Lemma managePass_no_dial_succeeds_witness :
  managePass (mkCollaborators Scenario.underlay (fun _ => false)) false
             (Scenario.twoKnown, []) =
  Ok ((Scenario.twoKnown,
       [] ++ attempts (mkCollaborators Scenario.underlay (fun _ => false))
               Scenario.twoKnown
               (concat (map snd (PSlice.indexed
                                   (knownPeers Scenario.twoKnown))))),
      None).
Proof.
  apply (@managePass_no_dial_succeeds
           (mkCollaborators Scenario.underlay (fun _ => false)) false
           Scenario.twoKnown []).
  intros po q H. right.
  do 2 (destruct po as [|po];
        [vm_compute in H; destruct H as [<-|[]]; eexists; split; reflexivity|]).
  exfalso. revert H. clear.
  do 14 (destruct po as [|po]; [intros []|]).
  cbn. destruct po; intros [].
Defined.

Lemma attempts_connected (c : Collaborators) (k : Kad) (l : list Address) :
  (forall q, In q l -> PSlice.Exists (connectedPeers k) q = true) ->
  attempts c k l = [].
Proof.
  induction l as [|a l IH]; intros H; [reflexivity|].
  unfold attempts in *. cbn [flat_map]. rewrite (H a (or_introl eq_refl)).
  cbn [app]. apply IH. intros q Hq. apply H. now right.
Qed.

(** X13.  When every known peer is connected, a pass dials no one and
    returns with the manager as it was. *)
Theorem managePass_all_connected (c : Collaborators) (pickQuit : bool)
    (k : Kad) (dials : list Multiaddr) :
  (forall po q, In q (nth po (knownPeers k) []) ->
                PSlice.Exists (connectedPeers k) q = true) ->
  managePass c pickQuit (k, dials) = Ok ((k, dials), None).
Proof.
  intros H. unfold managePass, PSlice.EachBinRev. cbn [fst].
  rewrite <- (app_nil_r (PSlice.indexed (knownPeers k))) at 1.
  rewrite eachBins_passedOver.
  - cbn [PSlice.eachBins]. rewrite attempts_connected, app_nil_r;
      [reflexivity|].
    intros q Hq. apply In_concat_indexed in Hq as [po Hq]. exact (H _ _ Hq).
  - intros q Hq. apply In_concat_indexed in Hq as [po Hq]. left.
    exact (H _ _ Hq).
Qed.

Lemma managePass_all_connected_witness :
  managePass Scenario.emptyBook false (Scenario.fourPeers, []) =
  Ok ((Scenario.fourPeers, []), None).
Proof.
  apply (@managePass_all_connected Scenario.emptyBook false
           Scenario.fourPeers []).
  intros po q H.
  do 16 (destruct po as [|po];
         [vm_compute in H;
          repeat (destruct H as [<-|H]; [reflexivity|]); contradiction|]).
  exfalso. destruct po; vm_compute in H; contradiction.
Defined.

(** ** Waking and closing the task *)

Lemma notify_open (pickQuit : bool) (k : Kad) :
  quit k = false -> manageC (notify pickQuit k) = true.
Proof.
  intros H. unfold notify. rewrite H.
  destruct (manageC k) eqn:E; [assumption|reflexivity].
Qed.

Lemma manageTurn_pending (c : Collaborators) (pq pq' : bool) (k : Kad)
    (dials : list Multiaddr) :
  quit k = false -> manageC k = true ->
  manageTurn c pq pq' (k, dials) =
  Passed (managePass c pq' (setManageC k false, dials)).
Proof.
  intros Hq Hm. unfold manageTurn. cbn [fst snd]. now rewrite Hq, Hm.
Qed.

(** X14.  While the manager is not closed, each of [Remove],
    [Disconnected] and an [AddPeer] that returns leaves a wake-up pending:
    the next turn of [manage] does not block, it takes the wake-up and runs
    a pass on the state the operation left. *)
Theorem mutation_wakes_manage (c : Collaborators) (pq pq1 pq2 : bool)
    (k : Kad) (a : Address) (dials : list Multiaddr) :
  quit k = false ->
  manageTurn c pq1 pq2 (Remove pq k a, dials) =
    Passed (managePass c pq2 (setManageC (Remove pq k a) false, dials)) /\
  manageTurn c pq1 pq2 (Disconnected pq k a, dials) =
    Passed (managePass c pq2
              (setManageC (Disconnected pq k a) false, dials)) /\
  match AddPeer pq k a with
  | Ok (k', _) =>
      manageTurn c pq1 pq2 (k', dials) =
      Passed (managePass c pq2 (setManageC k' false, dials))
  | Panic _ => True
  end.
Proof.
  intros Hq.
  assert (HR : manageTurn c pq1 pq2 (Remove pq k a, dials) =
               Passed (managePass c pq2
                         (setManageC (Remove pq k a) false, dials))).
  { apply manageTurn_pending.
    - unfold Remove.
      match goal with |- context [notify pq ?x] =>
        destruct (notify_frame pq x) as (_ & _ & _ & _ & -> & _) end.
      exact Hq.
    - unfold Remove. now apply notify_open. }
  repeat split; try exact HR.
  unfold AddPeer.
  destruct (PSlice.Exists (connectedPeers k) a
            || PSlice.Exists (knownPeers k) a); [exact I|].
  apply manageTurn_pending.
  - match goal with |- context [notify pq ?x] =>
      destruct (notify_frame pq x) as (_ & _ & _ & _ & -> & _) end.
    exact Hq.
  - now apply notify_open.
Qed.

Lemma mutation_wakes_manage_witness :
  manageTurn Scenario.allReachable false false
             (Remove false (New Scenario.baseAddr) Scenario.bin0, []) =
    Passed (managePass Scenario.allReachable false
              (setManageC (Remove false (New Scenario.baseAddr) Scenario.bin0)
                          false, [])) /\
  manageTurn Scenario.allReachable false false
             (Disconnected false (New Scenario.baseAddr) Scenario.bin0, []) =
    Passed (managePass Scenario.allReachable false
              (setManageC
                 (Disconnected false (New Scenario.baseAddr) Scenario.bin0)
                 false, [])) /\
  match AddPeer false (New Scenario.baseAddr) Scenario.bin0 with
  | Ok (k', _) =>
      manageTurn Scenario.allReachable false false (k', []) =
      Passed (managePass Scenario.allReachable false
                (setManageC k' false, []))
  | Panic _ => True
  end.
Proof.
  apply (@mutation_wakes_manage Scenario.allReachable false false false
           (New Scenario.baseAddr) Scenario.bin0 []).
  reflexivity.
Defined.

(** X15.  A [Close] that returns returns [nil] and touches neither the
    sets nor the depth; after it a turn of [manage] never blocks -- the task
    returns, unless a wake-up is pending and is picked, in which case one
    more pass runs -- and a second [Close] panics. *)
Theorem Close_once (c : Collaborators) (pq pq' : bool) (k k' : Kad)
    (e : error) (dials : list Multiaddr) :
  Close k = Ok (k', e) ->
  e = None /\
  connectedPeers k' = connectedPeers k /\
  knownPeers k' = knownPeers k /\
  NeighborhoodDepth k' = NeighborhoodDepth k /\
  manageTurn c pq pq' (k', dials) =
    (if pq || negb (manageC k) then Returned
     else Passed (managePass c pq' (setManageC k' false, dials))) /\
  Close k' = Panic "close of closed channel"%string.
Proof.
  unfold Close. destruct (quit k) eqn:Hq; [discriminate|].
  intros H. injection H as <- <-. repeat split.
  unfold manageTurn. cbn [fst snd setQuit quit manageC andb].
  destruct pq, (manageC k); reflexivity.
Qed.

Lemma Close_once_witness :
  @None string = None /\
  connectedPeers (setQuit Scenario.fourPeers true) =
    connectedPeers Scenario.fourPeers /\
  knownPeers (setQuit Scenario.fourPeers true) =
    knownPeers Scenario.fourPeers /\
  NeighborhoodDepth (setQuit Scenario.fourPeers true) =
    NeighborhoodDepth Scenario.fourPeers /\
  manageTurn Scenario.emptyBook true false
             (setQuit Scenario.fourPeers true, []) =
    (if true || negb (manageC Scenario.fourPeers) then Returned
     else Passed (managePass Scenario.emptyBook false
                    (setManageC (setQuit Scenario.fourPeers true) false,
                     []))) /\
  Close (setQuit Scenario.fourPeers true) =
    Panic "close of closed channel"%string.
Proof.
  apply (@Close_once Scenario.emptyBook true false Scenario.fourPeers
           (setQuit Scenario.fourPeers true) None []).
  reflexivity.
Defined.

(** ** Field names *)

Lemma streq_spec (a b : Httputil.gostring) :
  Httputil.streq a b = true <-> a = b.
Proof.
  unfold Httputil.streq.
  destruct (list_eq_dec Ascii.ascii_dec a b); split; congruence.
Qed.

Lemma HasSuffix_split (v suf : Httputil.gostring) :
  Httputil.HasSuffix v suf = true ->
  v = Httputil.TrimSuffix v suf ++ suf.
Proof.
  intros H. unfold Httputil.TrimSuffix. rewrite H.
  unfold Httputil.HasSuffix in H. apply andb_true_iff in H as [_ H].
  apply streq_spec in H.
  set (n := length v - length suf) in *.
  rewrite <- H. symmetry. apply firstn_skipn.
Qed.

Lemma TrimSuffix_eq (v suf p : Httputil.gostring) :
  Httputil.TrimSuffix v suf = p ->
  v = p ++ suf \/ (v = p /\ Httputil.HasSuffix v suf = false).
Proof.
  intros H. destruct (Httputil.HasSuffix v suf) eqn:E.
  - left. rewrite <- H. now apply HasSuffix_split.
  - right. unfold Httputil.TrimSuffix in H. rewrite E in H. now split.
Qed.

(** X16.  For a struct field with a name, [fieldName] returns the empty
    string, so that the field is skipped, exactly when the field has a json
    tag that is empty, "-", ",omitempty" or "-,omitempty"; without a json
    tag it returns the name of the field. *)
Theorem fieldName_skips (Name : Httputil.gostring)
    (jsonTag : option Httputil.gostring) :
  Name <> [] ->
  Httputil.fieldName Name None = Name /\
  (Httputil.fieldName Name jsonTag = [] <->
   jsonTag = Some [] \/
   jsonTag = Some (Httputil.lit "-"%string) \/
   jsonTag = Some (Httputil.lit ",omitempty"%string) \/
   jsonTag = Some (Httputil.lit "-,omitempty"%string)).
Proof.
  intros HN. split; [reflexivity|].
  destruct jsonTag as [v|].
  - unfold Httputil.fieldName.
    destruct (Httputil.streq (Httputil.TrimSuffix v _) []
              || Httputil.streq (Httputil.TrimSuffix v _) _) eqn:E.
    + split; [intros _|reflexivity].
      apply orb_true_iff in E as [E|E]; apply streq_spec in E;
        apply TrimSuffix_eq in E as [->|[-> _]]; auto.
    + apply orb_false_iff in E as [E1 E2]. split.
      * intros H. rewrite H in E1. discriminate.
      * intros [H|[H|[H|H]]]; injection H as ->; exfalso.
        -- vm_compute in E1. discriminate.
        -- vm_compute in E2. discriminate.
        -- vm_compute in E1. discriminate.
        -- vm_compute in E2. discriminate.
  - split.
    + intros H. contradiction.
    + intros [H|[H|[H|H]]]; discriminate.
Qed.

Lemma fieldName_skips_witness :
  Httputil.fieldName (Httputil.lit "Str"%string) None =
    Httputil.lit "Str"%string /\
  (Httputil.fieldName (Httputil.lit "Str"%string)
     (Some (Httputil.lit ",omitempty"%string)) = [] <->
   Some (Httputil.lit ",omitempty"%string) = Some [] \/
   Some (Httputil.lit ",omitempty"%string) =
     Some (Httputil.lit "-"%string) \/
   Some (Httputil.lit ",omitempty"%string) =
     Some (Httputil.lit ",omitempty"%string) \/
   Some (Httputil.lit ",omitempty"%string) =
     Some (Httputil.lit "-,omitempty"%string)).
Proof.
  apply (@fieldName_skips (Httputil.lit "Str"%string)
           (Some (Httputil.lit ",omitempty"%string))).
  discriminate.
Defined.

(** ** [AddPeer], twice *)

Lemma Length_Add (s : PSlice.t) (a : Address) :
  forall po, po < length s ->
    PSlice.Length (PSlice.Add s a po) = S (PSlice.Length s).
Proof.
  induction s as [|b r IH]; intros po H; cbn [length] in H; [lia|].
  destruct po as [|po]; cbn [PSlice.Add PSlice.Length].
  - rewrite length_app. cbn [length]. lia.
  - rewrite IH by lia. lia.
Qed.

(** X17.  In a state the manager gets into, an [AddPeer] that returns has
    put the address into the known set, in the bin of its proximity to the
    base and as one peer more; a second [AddPeer] of the address panics. *)
Theorem AddPeer_then_known (pq pq' : bool) (k k' : Kad) (a : Address)
    (e : error) :
  reachable k ->
  AddPeer pq k a = Ok (k', e) ->
  PSlice.Exists (knownPeers k') a = true /\
  In a (nth (Proximity (base k) a) (knownPeers k') []) /\
  PSlice.Length (knownPeers k') = S (PSlice.Length (knownPeers k)) /\
  AddPeer pq' k' a = Panic "peer already connected"%string.
Proof.
  intros Hr H. pose proof (reachable_wellFormed Hr) as W.
  unfold AddPeer in H.
  destruct (PSlice.Exists (connectedPeers k) a
            || PSlice.Exists (knownPeers k) a); [discriminate|].
  injection H as <- _.
  match goal with |- context [notify pq ?x] =>
    destruct (notify_frame pq x) as (_ & _ & Hk & _) end.
  cbn [setKnown knownPeers] in Hk.
  assert (Hlt : Proximity (base k) a < length (knownPeers k))
    by (rewrite (wf_known_bins W); apply Proximity_lt).
  assert (Hin : In a (nth (Proximity (base k) a)
                          (knownPeers (notify pq
                             (setKnown k (PSlice.Add (knownPeers k) a
                                            (Proximity (base k) a))))) [])).
  { rewrite Hk. apply In_Add. right. now repeat split. }
  assert (Hex : PSlice.Exists
                  (knownPeers (notify pq
                     (setKnown k (PSlice.Add (knownPeers k) a
                                    (Proximity (base k) a))))) a = true)
    by (apply Exists_spec; eauto).
  repeat split; try assumption.
  - rewrite Hk. now apply Length_Add.
  - unfold AddPeer. rewrite Hex, orb_true_r. reflexivity.
Qed.

Lemma AddPeer_then_known_witness :
  PSlice.Exists (knownPeers (Scenario.added Scenario.twoKnown Scenario.bin8))
                Scenario.bin8 = true /\
  In Scenario.bin8
     (nth (Proximity (base Scenario.twoKnown) Scenario.bin8)
          (knownPeers (Scenario.added Scenario.twoKnown Scenario.bin8)) []) /\
  PSlice.Length (knownPeers (Scenario.added Scenario.twoKnown Scenario.bin8)) =
    S (PSlice.Length (knownPeers Scenario.twoKnown)) /\
  AddPeer false (Scenario.added Scenario.twoKnown Scenario.bin8)
          Scenario.bin8 = Panic "peer already connected"%string.
Proof.
  apply (@AddPeer_then_known false false Scenario.twoKnown
           (Scenario.added Scenario.twoKnown Scenario.bin8)
           Scenario.bin8 None).
  - apply reachable_known.
  - reflexivity.
Defined.
